(** * budget.py: categories, ledgers and the spend chart

    A shallow embedding of [src/budget.py].

    - Amounts are Python [float]s, as the annotations of the program say,
      that is IEEE 754 binary64 values: they are Rocq's primitive [float],
      whose operations are the processor's and whose bit-level
      specification is [SpecFloat].  Sums are taken in ledger order, with
      the rounding of each addition.
    - A [str] is the list of its characters, one [ascii] each.
    - [Category] objects are mutable and are passed by reference, so they
      live in a heap indexed by object identity, and a method may be given
      the same object twice.  Methods are written in a small monad that
      threads the heap and the printed output and carries exceptions. *)

From Stdlib Require Import ZArith List String Ascii Floats Lia Bool.
From Stdlib Require Import DecimalString DecimalN DecimalFacts.
From stdpp Require Import gmap.

Set Default Proof Using "Type".

(** ** Python strings and the built-ins the program calls *)

(** A [str] is a sequence of characters; [lit] turns a literal into one. *)
Definition str := list ascii.

Definition lit (s : string) : str := list_ascii_of_string s.

Definition space : ascii := " "%char.
Definition newline : ascii := "010"%char.

(** [len(s)] of a string or a list, as an integer. *)
Definition len {A} (s : list A) : Z := Z.of_nat (length s).

(** [s.rjust(width, fill)]: [s] itself when it is already [width] long. *)
Definition rjust (s : str) (width : Z) (fill : ascii) : str :=
  repeat fill (Z.to_nat (width - len s)) ++ s.

(** [s.center(width, fill)].  CPython puts [marg / 2 + (marg & width & 1)]
    fill characters on the left and the rest on the right. *)
Definition center (s : str) (width : Z) (fill : ascii) : str :=
  let marg := (width - len s)%Z in
  if (marg <=? 0)%Z then s
  else
    let left := (marg / 2 + Z.land (Z.land marg width) 1)%Z in
    repeat fill (Z.to_nat left) ++ s ++ repeat fill (Z.to_nat (marg - left)).

(** [s[:n]]. *)
Definition slice_to (s : str) (n : nat) : str := firstn n s.

(** [s[i]] for [i >= 0]; [None] stands for [IndexError]. *)
Definition index (s : str) (i : nat) : option ascii := nth_error s i.

(** [int(s)] on a string of decimal digits; [None] stands for [ValueError]. *)
Definition digit_value (c : ascii) : option Z :=
  let n := Z.of_N (N_of_ascii c) in
  if ((48 <=? n) && (n <=? 57))%Z then Some (n - 48)%Z else None.

Fixpoint int_digits (acc : Z) (s : str) : option Z :=
  match s with
  | [] => Some acc
  | c :: s' =>
      match digit_value c with
      | Some d => int_digits (10 * acc + d)%Z s'
      | None => None
      end
  end.

Definition int (s : str) : option Z :=
  match s with
  | [] => None
  | _ => int_digits 0 s
  end.

(** Decimal numeral of a natural number, as [str(n)] prints it. *)
Definition decimal (n : Z) : str :=
  lit (NilZero.string_of_uint (N.to_uint (Z.to_N n))).

Definition digit_char (d : Z) : ascii := ascii_of_N (Z.to_N (48 + d)).

(** ** Exceptions *)

Inductive exn : Type :=
| ZeroDivisionError
| ValueError
| OverflowError.

Inductive res (A : Type) : Type :=
| Ok (a : A)
| Raise (e : exn).
Arguments Ok {A} a.
Arguments Raise {A} e.

Definition rbind {A B} (r : res A) (k : A -> res B) : res B :=
  match r with
  | Ok a => k a
  | Raise e => Raise e
  end.

(** ** Binary64 values

    [Prim2SF] maps a primitive float to its IEEE 754 description
    [spec_float]: a signed zero, a signed infinity, NaN, or a finite
    non-zero number [(-1)^s * m * 2^e] with [m < 2^53] and
    [-1074 <= e <= 971]. *)

Module B64.

(** The exact value of a finite float, in units of [2^-1074] (the smallest
    positive binary64 number), so that it is an integer. *)
Definition scaled (x : spec_float) : Z :=
  match x with
  | S754_finite s m e => cond_Zopp s (Zpos m * 2 ^ (e + 1074))
  | _ => 0%Z
  end.

Definition finite (x : spec_float) : bool :=
  match x with
  | S754_finite _ _ _ | S754_zero _ => true
  | _ => false
  end.

Definition is_zero (x : spec_float) : bool :=
  match x with S754_zero _ => true | _ => false end.

(** The sign bit of a float; NaN has none. *)
Definition sign_of (x : spec_float) : option bool :=
  match x with
  | S754_zero s | S754_infinity s | S754_finite s _ _ => Some s
  | S754_nan => None
  end.

(** [-1.0]. *)
Definition minus_one : spec_float := S754_finite true 4503599627370496 (-52).

(** A shift record with no bit lost so far. *)
Definition exact_record (z : Z) : shr_record := Build_shr_record z false false.

End B64.

(** ** Floating-point built-ins *)

Module Float.

(** The exact value of [x] in units of [2^-1074]; [None] when [x] is an
    infinity or NaN. *)
Definition exact_value (x : float) : option Z :=
  if B64.finite (Prim2SF x) then Some (B64.scaled (Prim2SF x)) else None.

(** [x / y] on floats raises [ZeroDivisionError] when [y] is [0.0] or
    [-0.0]. *)
Definition truediv (x y : float) : res float :=
  if is_zero y then Raise ZeroDivisionError else Ok (x / y)%float.

(** [math.floor(x)]: the largest integer not above [x]. *)
Definition floor (x : float) : res Z :=
  match Prim2SF x with
  | S754_nan => Raise ValueError
  | S754_infinity _ => Raise OverflowError
  | S754_zero _ => Ok 0%Z
  | S754_finite s m (Zneg p) => Ok (cond_Zopp s (Zpos m) / 2 ^ Zpos p)%Z
  | S754_finite s m e => Ok (cond_Zopp s (Zpos m) * 2 ^ e)%Z
  end.

(** [n / d] rounded to the nearest integer, ties to the even one
    ([0 <= n], [0 < d]). *)
Definition div_half_even (n d : Z) : Z :=
  let q := (n / d)%Z in
  match (2 * (n mod d) ?= d)%Z with
  | Lt => q
  | Gt => (q + 1)%Z
  | Eq => if Z.even q then q else (q + 1)%Z
  end.

(** [|x| * 100] rounded to an integer, as the correctly rounded
    conversion behind ["%.2f"] does. *)
Definition hundredths (m : positive) (e : Z) : Z :=
  match e with
  | Zneg p => div_half_even (Zpos m * 100) (2 ^ Zpos p)
  | _ => (Zpos m * 100 * 2 ^ e)%Z
  end.

Definition sign_str (s : bool) : str := if s then lit "-" else [].

(** [f"{x:0.2f}"]: the [0] flag has no effect without a width. *)
Definition format_2f (x : float) : str :=
  match Prim2SF x with
  | S754_nan => lit "nan"
  | S754_infinity s => sign_str s ++ lit "inf"
  | S754_zero s => sign_str s ++ lit "0.00"
  | S754_finite s m e =>
      let h := hundredths m e in
      sign_str s ++ decimal (h / 100) ++ lit "."
        ++ [digit_char (h mod 100 / 10); digit_char (h mod 10)]
  end.

End Float.

(** ** Data model *)

(** [class LedgerElement(TypedDict)]: every entry the program builds has
    both keys, so [element.get(key)] is the field. *)
Record LedgerElement : Type := mkLedgerElement {
  amount : float;
  description : str
}.

(** [class Category]: [self.name] and [self.ledger]. *)
Record Category : Type := mkCategory {
  name : str;
  ledger : list LedgerElement
}.

(** Object identities and the heap of [Category] objects. *)
Definition ref := nat.
Abbreviation heap := (gmap ref Category).

(** The world a call runs in: the objects and what was printed. *)
Record world : Type := mkWorld {
  objects : heap;
  stdout : list str
}.

(** ** The monad of method calls *)

Inductive outcome (A : Type) : Type :=
| Returns (a : A) (w : world)
| Raises (e : exn) (w : world)
| NoSuchObject.
Arguments Returns {A} a w.
Arguments Raises {A} e w.
Arguments NoSuchObject {A}.

Definition M (A : Type) : Type := world -> outcome A.

Definition ret {A} (a : A) : M A := fun w => Returns a w.

Definition bind {A B} (m : M A) (k : A -> M B) : M B :=
  fun w =>
    match m w with
    | Returns a w' => k a w'
    | Raises e w' => Raises e w'
    | NoSuchObject => NoSuchObject
    end.

Notation "x <- m ;; k" := (bind m (fun x => k))
  (at level 100, m at next level, right associativity).
Notation "m ;;; k" := (bind m (fun _ => k))
  (at level 100, right associativity).

Definition lift {A} (r : res A) : M A :=
  fun w => match r with Ok a => Returns a w | Raise e => Raises e w end.

(** Reading the object behind a reference. *)
Definition deref (r : ref) : M Category :=
  fun w => match objects w !! r with
           | Some c => Returns c w
           | None => NoSuchObject
           end.

(** [self.ledger.append(element)]: mutates the list in place. *)
Definition ledger_append (self : ref) (element : LedgerElement) : M unit :=
  fun w => match objects w !! self with
           | Some c =>
               Returns tt
                 (mkWorld (<[self := mkCategory (name c) (ledger c ++ [element])]> (objects w))
                          (stdout w))
           | None => NoSuchObject
           end.

(** [print(s)]. *)
Definition print (s : str) : M unit :=
  fun w => Returns tt (mkWorld (objects w) (stdout w ++ [s])).

(** [Category(name)]: a new object with an empty ledger. *)
Definition Category_init (name : str) : M ref :=
  fun w =>
    let r := fresh (dom (objects w)) in
    Returns r (mkWorld (<[r := mkCategory name []]> (objects w)) (stdout w)).

(** ** [class Category] *)

(** The loop of [get_balance]: [balance += element.get("amount")]. *)
Definition balance_loop (l : list LedgerElement) (balance : float) : float :=
  fold_left (fun balance element => (balance + amount element)%float) l balance.

Definition get_balance (self : ref) : M float :=
  c <- deref self ;;
  ret (balance_loop (ledger c) 0%float).

Definition check_funds (self : ref) (amount : float) : M bool :=
  balance <- get_balance self ;;
  ret (amount <=? balance)%float.

Definition deposit (self : ref) (amount : float) (description : str) : M unit :=
  ledger_append self (mkLedgerElement amount description).

Definition withdraw (self : ref) (amount : float) (description : str) : M bool :=
  ok <- check_funds self amount ;;
  if ok then
    ledger_append self (mkLedgerElement (amount * (-1))%float description) ;;;
    ret true
  else ret false.

Definition transfer (self : ref) (amount : float) (destination : ref) : M bool :=
  ok <- check_funds self amount ;;
  if ok then
    dst <- deref destination ;;
    withdraw self amount (lit "Transfer to " ++ name dst) ;;;
    src <- deref self ;;
    deposit destination amount (lit "Transfer from " ++ name src) ;;;
    ret true
  else ret false.

(** [__str__]: one line of the statement per ledger entry. *)
Definition statement_line (element : LedgerElement) : str :=
  let amount := Float.format_2f (amount element) in
  let amount_len := len amount in
  let description := slice_to (description element) 23 in
  let description_len := len description in
  description ++ rjust [] (30 - amount_len - description_len) space
    ++ amount ++ [newline].

Definition Category_str (self : ref) : M str :=
  c <- deref self ;;
  let result := center (name c) 30 "*"%char ++ [newline] in
  let result :=
    fold_left (fun result element => result ++ statement_line element)
              (ledger c) result in
  balance <- get_balance self ;;
  let total := lit "Total: " ++ Float.format_2f balance in
  ret (result ++ total).

(** ** [create_spend_chart] *)

Record Withdraw : Type := mkWithdraw {
  w_name : str;
  w_amount : float
}.

Record XAxis : Type := mkXAxis {
  x_name : str;
  x_value : Z
}.

(** The inner loop over [category.ledger]. *)
Definition withdraw_sum (l : list LedgerElement) : float :=
  fold_left
    (fun withdraw_sum ledger_element =>
       let amount := amount ledger_element in
       if (amount <? 0)%float then (withdraw_sum + amount * (-1))%float
       else withdraw_sum)
    l 0%float.

(** The loop over [categories], which reads each object. *)
Fixpoint withdraws_loop (categories : list ref) (withdraws : list Withdraw)
  : M (list Withdraw) :=
  match categories with
  | [] => ret withdraws
  | category :: rest =>
      c <- deref category ;;
      withdraws_loop rest
        (withdraws ++ [mkWithdraw (name c) (withdraw_sum (ledger c))])
  end.

(** [overall_withdraw]: it starts as the integer [0], which the first
    addition converts to [0.0]; it is read only after such an addition. *)
Definition overall_loop (withdraws : list Withdraw) : float :=
  fold_left (fun overall_withdraw withdraw =>
               (overall_withdraw + w_amount withdraw)%float)
            withdraws 0%float.

(** [math.floor(100.0 / overall_withdraw * amount / 10.0) * 10]. *)
Definition withdraw_percent (overall_withdraw amount : float) : res Z :=
  rbind (Float.truediv 100 overall_withdraw) (fun q =>
  rbind (Float.floor (q * amount / 10)%float) (fun n =>
  Ok (n * 10)%Z)).

Fixpoint x_axis_loop (overall_withdraw : float) (withdraws : list Withdraw)
    (x_axis : list XAxis) (max_name_length : Z) : res (list XAxis * Z) :=
  match withdraws with
  | [] => Ok (x_axis, max_name_length)
  | withdraw :: rest =>
      rbind (withdraw_percent overall_withdraw (w_amount withdraw))
        (fun withdraw_percent =>
           x_axis_loop overall_withdraw rest
             (x_axis ++ [mkXAxis (w_name withdraw) withdraw_percent])
             (Z.max max_name_length (len (w_name withdraw))))
  end.

Definition y_axis : list str :=
  map lit ["100"; "90"; "80"; "70"; "60"; "50"; "40"; "30"; "20"; "10"; "0"]%string.

Definition empty : str := lit "   ".
Definition full : str := lit " o ".

(** The cells of one row: the loop over [x_axis]. *)
Definition cells_loop (y_value : Z) (x_axis : list XAxis) (result : str) : str :=
  fold_left (fun result x_element =>
               if (y_value <=? x_value x_element)%Z then result ++ full
               else result ++ empty)
            x_axis result.

(** The loop over [y_axis]. *)
Fixpoint rows_loop (ys : list str) (x_axis : list XAxis) (result : str)
  : res str :=
  match ys with
  | [] => Ok result
  | y_element :: rest =>
      let result := result ++ rjust (y_element ++ lit "|") 4 space in
      match int y_element with
      | None => Raise ValueError
      | Some y_value =>
          let result := cells_loop y_value x_axis result in
          rows_loop rest x_axis (result ++ [space; newline])
      end
  end.

(** One label cell: [" " + name[i] + " "], or blanks on [IndexError]. *)
Definition label_cell (x_element : XAxis) (i : nat) : str :=
  match index (x_name x_element) i with
  | Some c => lit " " ++ [c] ++ lit " "
  | None => lit "   "
  end.

(** [while i < max_name_length]: [todo] counts the iterations left, that is
    [max_name_length - i]. *)
Fixpoint labels_loop (x_axis : list XAxis) (max_name_length : Z)
    (todo : nat) (i : nat) (result : str) : str :=
  match todo with
  | O => result
  | S todo' =>
      let line :=
        fold_left (fun line x_element => line ++ label_cell x_element i)
                  x_axis (lit "    ") in
      let result := result ++ line ++ lit " " in
      let result :=
        if (Z.of_nat i <? max_name_length - 1)%Z then result ++ [newline]
        else result in
      labels_loop x_axis max_name_length todo' (S i) result
  end.

Definition create_spend_chart (categories : list ref) : M str :=
  withdraws <- withdraws_loop categories [] ;;
  let overall_withdraw := overall_loop withdraws in
  xm <- lift (x_axis_loop overall_withdraw withdraws [] 0) ;;
  let x_axis := fst xm in
  let max_name_length := snd xm in
  let result := lit "Percentage spent by category" ++ [newline] in
  result <- lift (rows_loop y_axis x_axis result) ;;
  let result :=
    result ++ lit "    " ++ rjust [] (len x_axis * 3) "-"%char
      ++ lit "-" ++ [newline] in
  let result :=
    labels_loop x_axis max_name_length (Z.to_nat max_name_length) 0 result in
  print result ;;;
  ret result.

(** ** Specification-side definitions *)

(** The sum of the amounts of a ledger, entry after entry in insertion
    order: the sum of an empty ledger is [0], and an entry appended to a
    ledger adds its amount to the sum of that ledger. *)
Definition sum_amounts (l : list LedgerElement) : float :=
  fold_right (fun element s => (s + amount element)%float) 0%float (rev l).

(** The world after [element] was appended to the ledger of the object
    [self], which was [c]. *)
Definition appended (w : world) (self : ref) (c : Category)
    (element : LedgerElement) : world :=
  mkWorld (<[self := mkCategory (name c) (ledger c ++ [element])]> (objects w))
          (stdout w).

(** Sequences of ledger operations. *)
Inductive op : Type :=
| OpDeposit (self : ref) (amount : float) (description : str)
| OpWithdraw (self : ref) (amount : float) (description : str)
| OpTransfer (self : ref) (amount : float) (destination : ref).

Definition run_op (o : op) : M unit :=
  match o with
  | OpDeposit self amount description => deposit self amount description
  | OpWithdraw self amount description =>
      withdraw self amount description ;;; ret tt
  | OpTransfer self amount destination =>
      transfer self amount destination ;;; ret tt
  end.

Fixpoint run_ops (ops : list op) : M unit :=
  match ops with
  | [] => ret tt
  | o :: rest => run_op o ;;; run_ops rest
  end.

(** The world built by a program run from the empty world. *)
Definition w0 : world := mkWorld ∅ [].

Definition world_after {A} (m : M A) : world :=
  match m w0 with
  | Returns _ w => w
  | Raises _ w => w
  | NoSuchObject => w0
  end.

(** *** What the specification says of [transfer] *)

Definition transfer_to_entry (amount : float) (dst : Category) : LedgerElement :=
  mkLedgerElement (- amount)%float (lit "Transfer to " ++ name dst).

Definition transfer_from_entry (amount : float) (src : Category) : LedgerElement :=
  mkLedgerElement amount (lit "Transfer from " ++ name src).

(** With enough funds the call succeeds, the balance of the source goes
    down by [amount] through a new entry, and that of the destination goes
    up by [amount] through a new entry; without, nothing changes. *)
Definition transfer_claim (w : world) (self : ref) (amount : float)
    (destination : ref) (src dst : Category) : Prop :=
  let balance := sum_amounts (ledger src) in
  ((amount <=? balance)%float = true ->
   exists w' src' dst',
     transfer self amount destination w = Returns true w' /\
     objects w' !! self = Some src' /\
     objects w' !! destination = Some dst' /\
     transfer_to_entry amount dst ∈ ledger src' /\
     transfer_from_entry amount src ∈ ledger dst' /\
     sum_amounts (ledger src') = (balance - amount)%float /\
     sum_amounts (ledger dst') = (sum_amounts (ledger dst) + amount)%float) /\
  ((balance <? amount)%float = true ->
   transfer self amount destination w = Returns false w).

(** *** What the specification says of balances after a withdrawal *)

(** A balance is never negative when [balance < 0] is false. *)
Definition never_negative (balance : float) : Prop :=
  (balance <? 0)%float = false.

Definition nonnegative (balance : float) : Prop :=
  (0 <=? balance)%float = true.

(** A call [m] on the object [self], which was [c], either succeeds, and
    then the funds check held and the balance it leaves satisfies [post],
    or fails and leaves the world as it was: it appends only when the
    check held. *)
Definition guarded (post : float -> Prop) (m : M bool) (w : world)
    (self : ref) (amount : float) (c : Category) : Prop :=
  forall ok w',
    m w = Returns ok w' ->
    if ok then
      (amount <=? sum_amounts (ledger c))%float = true /\
      exists c', objects w' !! self = Some c' /\ post (sum_amounts (ledger c'))
    else w' = w.

(** *** What the specification says of a deposit followed by a withdrawal *)

Definition round_trip_claim (w : world) (self : ref) (X : float)
    (c : Category) : Prop :=
  exists w1 ok w2 c2,
    deposit self X [] w = Returns tt w1 /\
    withdraw self X [] w1 = Returns ok w2 /\
    objects w2 !! self = Some c2 /\
    (sum_amounts (ledger c2) =? sum_amounts (ledger c))%float = true.

(** *** What the specification says of the percentages *)

(** [floor(100 * withdraw_sum / overall_withdraw / 10) * 10]. *)
Definition percent_claim (withdraw_sum overall_withdraw : float) : res Z :=
  rbind (Float.truediv (100 * withdraw_sum) overall_withdraw) (fun q =>
  rbind (Float.floor (q / 10)%float) (fun n =>
  Ok (n * 10)%Z)).

(** If the total of the withdrawals is zero the chart fails with a
    division by zero. *)
Definition zero_total_claim (w : world) (categories : list ref) : Prop :=
  forall withdraws,
    withdraws_loop categories [] w = Returns withdraws w ->
    is_zero (overall_loop withdraws) = true ->
    exists w', create_spend_chart categories w = Raises ZeroDivisionError w'.

(** *** What the specification says of the statement and of the chart *)

(** One statement line as the program builds it: the description cut to
    23 characters, the padding and the formatted amount. *)
Definition line_spec (element : LedgerElement) : str :=
  let d := firstn 23 (description element) in
  let a := Float.format_2f (amount element) in
  d ++ repeat space (Z.to_nat (30 - len a - len d)) ++ a.

Definition statement_spec (c : Category) : str :=
  center (name c) 30 "*"%char ++ [newline]
    ++ concat (map (fun element => line_spec element ++ [newline]) (ledger c))
    ++ lit "Total: " ++ Float.format_2f (sum_amounts (ledger c)).

(** The ten digits, each at the place of its value. *)
Definition digit_chars : str := lit "0123456789".

(** [t] is written with the decimal digits [ds], the first one first. *)
Definition digit_text (ds : list Z) (t : str) : Prop :=
  Forall2 (fun d c => (0 <= d <= 9)%Z /\
                      nth_error digit_chars (Z.to_nat d) = Some c) ds t.

(** The number that the decimal digits [ds] write. *)
Definition digits_value (ds : list Z) : Z :=
  fold_left (fun value d => (10 * value + d)%Z) ds 0%Z.

(** [t] is not empty and its characters are decimal digits that write [n]. *)
Definition digits_of (n : Z) (t : str) : Prop :=
  t <> [] /\ exists ds, digit_text ds t /\ digits_value ds = n.

(** [t] is the decimal numeral of [n]: digits that write [n], with no
    leading zero unless it is ["0"]. *)
Definition numeral (n : Z) (t : str) : Prop :=
  digits_of n t /\ (t = lit "0" \/ hd_error t <> Some "0"%char).

(** [h] is the integer nearest to [num / den], and the even one of the two
    when [num / den] lies half way between them ([0 < den]). *)
Definition nearest_even (num den h : Z) : Prop :=
  (2 * Z.abs (h * den - num) <= den)%Z /\
  ((2 * Z.abs (h * den - num) = den)%Z -> Z.even h = true).

(** The text with two decimals of the number of sign [s] and magnitude
    [num / den / 100]: a minus sign when the sign bit is set, the numeral
    of the whole part, a point and two digits, for the magnitude rounded
    to the nearest hundredth [h / 100]. *)
Definition two_decimal_text (s : bool) (num den : Z) (a : str) : Prop :=
  exists (whole : str) (d1 d2 : ascii) (h : Z),
    nearest_even num den h /\
    numeral (h / 100) whole /\
    digits_of (h mod 100) [d1; d2] /\
    a = (if s then lit "-" else []) ++ whole ++ lit "." ++ [d1; d2].

(** The text of an amount: two decimals for a finite float
    [(-1)^s * m * 2^e], and [inf], [-inf] or [nan] for the others. *)
Definition amount_text (x : float) (a : str) : Prop :=
  match Prim2SF x with
  | S754_nan => a = lit "nan"
  | S754_infinity s => a = (if s then lit "-" else []) ++ lit "inf"
  | S754_zero s => two_decimal_text s 0 1 a
  | S754_finite s m e =>
      two_decimal_text s (Zpos m * 100 * 2 ^ Z.max 0 e) (2 ^ Z.max 0 (- e)) a
  end.

(** The line of a ledger entry whose amount has the text [a]. *)
Definition entry_line (element : LedgerElement) (a : str) : str :=
  let d := firstn 23 (description element) in
  d ++ repeat space (Z.to_nat (30 - len a - len d)) ++ a.

(** The statement of [c] for the texts of its amounts and of its balance. *)
Definition statement_of (c : Category) (texts : list str) (total : str) : str :=
  center (name c) 30 "*"%char ++ [newline]
    ++ concat (zip_with (fun element a => entry_line element a ++ [newline])
                        (ledger c) texts)
    ++ lit "Total: " ++ total.

(** The rows of the chart for the labels [100, 90, ..., 0]. *)
Definition labels : list Z := [100; 90; 80; 70; 60; 50; 40; 30; 20; 10; 0]%Z.

Definition cell_spec (label : Z) (x_element : XAxis) : str :=
  if (label <=? x_value x_element)%Z then lit " o " else lit "   ".

Definition row_spec (x_axis : list XAxis) (label : Z) : str :=
  rjust (decimal label ++ lit "|") 4 space
    ++ concat (map (cell_spec label) x_axis) ++ lit " " ++ [newline].

Definition body_spec (x_axis : list XAxis) : str :=
  concat (map (row_spec x_axis) labels).

Definition separator_spec (n : nat) : str :=
  repeat space 4 ++ repeat "-"%char (3 * n + 1) ++ [newline].

Definition title : str := lit "Percentage spent by category" ++ [newline].

(** The category names written downwards below the chart. *)
Definition names_spec (x_axis : list XAxis) (max_name_length : Z) : str :=
  labels_loop x_axis max_name_length (Z.to_nat max_name_length) 0 [].

(** The bar of each category, in input order: its name and percentage. *)
Definition bar_of (w : world) (overall_withdraw : float) (category : ref)
    (x_element : XAxis) : Prop :=
  exists c,
    objects w !! category = Some c /\
    x_name x_element = name c /\
    withdraw_percent overall_withdraw (withdraw_sum (ledger c))
      = Ok (x_value x_element).

(** Lines of text, each followed by a newline. *)
Definition unlines (ls : list string) : str :=
  concat (map (fun l => lit l ++ [newline]) ls).

(** The chart of no category at all: the title, eleven rows with the
    label, the bar [|] and one space, and a separator of one dash. *)
Definition empty_chart : str :=
  unlines ["Percentage spent by category";
           "100| "; " 90| "; " 80| "; " 70| "; " 60| "; " 50| ";
           " 40| "; " 30| "; " 20| "; " 10| "; "  0| ";
           "    -"]%string.

(** ** Example programs *)

Module Examples.

(** The first two objects a program creates. *)
Definition food : ref := 0.
Definition auto : ref := 1.

(** [Category("Food")] with a deposit of 900 and a withdrawal of 105.25. *)
Definition food_program : M ref :=
  food <- Category_init (lit "Food") ;;
  deposit food 900 (lit "initial") ;;;
  withdraw food 105.25 (lit "groceries") ;;;
  ret food.

Definition food_ops : list op :=
  [OpDeposit 0 900 (lit "initial"); OpWithdraw 0 105.25 (lit "groceries")].

Definition food_world : world := world_after food_program.

Definition new_food_world : world := world_after (Category_init (lit "Food")).

Definition food_category : Category :=
  mkCategory (lit "Food")
    [mkLedgerElement 900 (lit "initial");
     mkLedgerElement (-105.25) (lit "groceries")].

(** Two categories, the first with funds. *)
Definition two_program : M unit :=
  food <- Category_init (lit "Food") ;;
  auto <- Category_init (lit "Auto") ;;
  deposit food 900 (lit "initial").

Definition two_world : world := world_after two_program.

Definition food_900 : Category :=
  mkCategory (lit "Food") [mkLedgerElement 900 (lit "initial")].

Definition auto_empty : Category := mkCategory (lit "Auto") [].

(** One category with a balance of 100. *)
Definition hundred_world : world :=
  world_after (c <- Category_init (lit "Food") ;; deposit c 100 (lit "initial")).

Definition food_100 : Category :=
  mkCategory (lit "Food") [mkLedgerElement 100 (lit "initial")].

(** One category whose balance is negative after a negative deposit. *)
Definition overdrawn_world : world :=
  world_after (c <- Category_init (lit "Food") ;; deposit c (-10) (lit "refund")).

Definition food_overdrawn : Category :=
  mkCategory (lit "Food") [mkLedgerElement (-10) (lit "refund")].

(** One category with a balance of one tenth. *)
Definition tenth : float := Eval compute in (1 / 10)%float.
Definition fifth : float := Eval compute in (2 / 10)%float.

Definition tenth_world : world :=
  world_after (c <- Category_init (lit "Food") ;; deposit c tenth (lit "coins")).

Definition food_tenth : Category :=
  mkCategory (lit "Food") [mkLedgerElement tenth (lit "coins")].

(** One category that spent 97 in all. *)
Definition spent_97_world : world :=
  world_after (c <- Category_init (lit "Food") ;;
               deposit c 1000 (lit "deposit") ;;;
               withdraw c 97 (lit "groceries")).

(** Its chart as the program draws it: the bar stops at 90. *)
Definition spent_97_chart : str :=
  unlines ["Percentage spent by category";
           "100|    "; " 90| o  "; " 80| o  "; " 70| o  "; " 60| o  ";
           " 50| o  "; " 40| o  "; " 30| o  "; " 20| o  "; " 10| o  ";
           "  0| o  ";
           "    ----"]%string
  ++ lit "     F  " ++ [newline]
  ++ lit "     o  " ++ [newline]
  ++ lit "     o  " ++ [newline]
  ++ lit "     d  ".

(** One category with a deposit and no withdrawal. *)
Definition saved_world : world :=
  world_after (c <- Category_init (lit "Food") ;; deposit c 1000 (lit "deposit")).

(** The statement of the example in the specification. *)
Definition business_world : world :=
  world_after (c <- Category_init (lit "Business") ;;
               ledger_append c (mkLedgerElement (-15) (lit "Transfer to Rainy Days"))).

Definition business : Category :=
  mkCategory (lit "Business")
    [mkLedgerElement (-15) (lit "Transfer to Rainy Days")].

(** Two categories that spent 50 each. *)
Definition even_world : world :=
  world_after (food <- Category_init (lit "Food") ;;
               auto <- Category_init (lit "Auto") ;;
               deposit food 100 (lit "initial") ;;;
               deposit auto 100 (lit "initial") ;;;
               withdraw food 50 (lit "groceries") ;;;
               withdraw auto 50 (lit "fuel")).

(** The chart of [even_world]: both bars reach the row of 50. *)
Definition even_chart : str :=
  unlines ["Percentage spent by category";
           "100|       "; " 90|       "; " 80|       "; " 70|       ";
           " 60|       "; " 50| o  o  "; " 40| o  o  "; " 30| o  o  ";
           " 20| o  o  "; " 10| o  o  "; "  0| o  o  ";
           "    -------"]%string
  ++ lit "     F  A  " ++ [newline]
  ++ lit "     o  u  " ++ [newline]
  ++ lit "     o  t  " ++ [newline]
  ++ lit "     d  o  ".

End Examples.

(** ** Further definitions *)

Module B64Sign.

(** NaN, or a value whose sign bit is clear. *)
Definition unsigned (x : spec_float) : bool :=
  match B64.sign_of x with
  | Some true => false
  | _ => true
  end.

End B64Sign.

(** A float that is [+0.0], positive or [+inf]. *)
Definition plus_signed (x : float) : Prop :=
  B64.sign_of (Prim2SF x) = Some false.

(** No entry of the ledger is negative. *)
Definition nothing_spent (c : Category) : Prop :=
  forall element, element ∈ ledger c -> (amount element <? 0)%float = false.

(** No object appears or disappears, every name stays, every ledger only
    grows at its end, and nothing is printed. *)
Definition history_kept (w w' : world) : Prop :=
  stdout w' = stdout w /\
  forall r,
    match objects w !! r with
    | Some c =>
        exists added,
          objects w' !! r = Some (mkCategory (name c) (ledger c ++ added))
    | None => objects w' !! r = None
    end.

(** The objects an operation is called on. *)
Definition op_refs (o : op) : list ref :=
  match o with
  | OpDeposit self _ _ => [self]
  | OpWithdraw self _ _ => [self]
  | OpTransfer self _ destination => [self; destination]
  end.

(** Lines joined by newlines, with none after the last. *)
Fixpoint join_lines (ls : list str) : str :=
  match ls with
  | [] => []
  | [l] => l
  | l :: rest => l ++ [newline] ++ join_lines rest
  end.

(** The row of the [i]-th characters of the names. *)
Definition name_row (x_axis : list XAxis) (i : nat) : str :=
  lit "    " ++ concat (map (fun x_element => label_cell x_element i) x_axis)
    ++ lit " ".

(** The [i]-th row of the names written downwards: four spaces, then for
    each name a space, its [i]-th character, or a space when the name is
    shorter, and a space, then one more space. *)
Definition names_row_spec (names : list str) (i : nat) : str :=
  repeat space 4
    ++ concat (map (fun name => [space; nth i name space; space]) names)
    ++ [space].

(** The length of the longest name. *)
Definition longest_name (x_axis : list XAxis) : nat :=
  max_list (map (fun x_element => length (x_name x_element)) x_axis).

Module MoreExamples.

(** One category in which a NaN was deposited after a deposit of 100. *)
Definition nan_world : world :=
  world_after (c <- Category_init (lit "Food") ;;
               deposit c 100 (lit "initial") ;;;
               deposit c nan (lit "broken")).

Definition food_nan : Category :=
  mkCategory (lit "Food")
    [mkLedgerElement 100 (lit "initial"); mkLedgerElement nan (lit "broken")].

Definition food_1000 : Category :=
  mkCategory (lit "Food") [mkLedgerElement 1000 (lit "deposit")].

(** The two categories of [Examples.even_world] as the chart reads them. *)
Definition even_withdraws : list Withdraw :=
  [mkWithdraw (lit "Food") 50; mkWithdraw (lit "Auto") 50].

Definition even_x_axis : list XAxis :=
  [mkXAxis (lit "Food") 50; mkXAxis (lit "Auto") 50].

(** The two categories of [Examples.even_world]. *)
Definition even_food : Category :=
  mkCategory (lit "Food")
    [mkLedgerElement 100 (lit "initial"); mkLedgerElement (-50) (lit "groceries")].

Definition even_auto : Category :=
  mkCategory (lit "Auto")
    [mkLedgerElement 100 (lit "initial"); mkLedgerElement (-50) (lit "fuel")].

End MoreExamples.

(** ** Facts about binary64 values *)

Module B64Facts.
Local Open Scope Z_scope.

(** *** Mantissas and exponents of valid floats *)

Lemma digits2_size m : digits2_pos m = Pos.size m.
Proof. induction m; simpl; congruence. Qed.

Lemma digits2_bounds m :
  2 ^ (Zpos (digits2_pos m) - 1) <= Zpos m < 2 ^ Zpos (digits2_pos m).
Proof.
  rewrite digits2_size. split.
  - pose proof (Pos.size_le m) as H.
    assert (2 ^ Zpos (Pos.size m) <= 2 * Zpos m).
    { change 2 with (Zpos 2) at 1. rewrite <- Pos2Z.inj_pow. lia. }
    replace (Zpos (Pos.size m)) with (Zpos (Pos.size m) - 1 + 1) in H0 by lia.
    rewrite Z.pow_add_r in H0 by lia. lia.
  - pose proof (Pos.size_gt m) as H.
    change 2 with (Zpos 2). rewrite <- Pos2Z.inj_pow. lia.
Qed.

Lemma bounded_inv m e :
  bounded prec emax m e = true ->
  -1074 <= e <= 971 /\ Zpos (digits2_pos m) <= 53 /\
  (-1074 < e -> Zpos (digits2_pos m) = 53).
Proof.
  unfold bounded, canonical_mantissa, fexp, SpecFloat.emin, prec, emax.
  intros H. apply andb_prop in H as [H1 H2].
  apply Z.eqb_eq in H1. apply Z.leb_le in H2. lia.
Qed.

Lemma bounded_range m e :
  bounded prec emax m e = true ->
  -1074 <= e <= 971 /\ Zpos m < 2 ^ 53 /\ (-1074 < e -> 2 ^ 52 <= Zpos m).
Proof.
  intros H. apply bounded_inv in H as (He & Hd & Hn).
  pose proof (digits2_bounds m) as [Hlo Hhi].
  split; [exact He|]. split.
  - eapply Z.lt_le_trans; [exact Hhi|]. apply Z.pow_le_mono_r; lia.
  - intros He'. rewrite (Hn He') in Hlo. exact Hlo.
Qed.

(** *** Comparison *)

(** Among valid floats a smaller exponent means a smaller magnitude. *)
Lemma scaled_lt_exp m1 e1 m2 e2 :
  bounded prec emax m1 e1 = true -> bounded prec emax m2 e2 = true ->
  e1 < e2 ->
  Zpos m1 * 2 ^ (e1 + 1074) < Zpos m2 * 2 ^ (e2 + 1074).
Proof.
  intros H1 H2 Hlt.
  apply bounded_range in H1 as (He1 & Hm1 & _).
  apply bounded_range in H2 as (He2 & _ & Hm2).
  specialize (Hm2 ltac:(lia)).
  replace (e2 + 1074) with ((e1 + 1074) + (e2 - e1)) by lia.
  rewrite (Z.pow_add_r 2 (e1 + 1074) (e2 - e1)) by lia.
  assert (HA : 0 < 2 ^ (e1 + 1074)) by (apply Z.pow_pos_nonneg; lia).
  assert (HB : 2 ^ 1 <= 2 ^ (e2 - e1)) by (apply Z.pow_le_mono_r; lia).
  change (2 ^ 1) with 2 in HB. change (2 ^ 53) with (2 * 2 ^ 52) in Hm1.
  set (A := 2 ^ (e1 + 1074)) in *. set (B := 2 ^ (e2 - e1)) in *.
  set (c := 2 ^ 52) in *.
  assert (Zpos m1 * A < 2 * c * A) by nia.
  assert (2 * c * A <= 2 * Zpos m2 * A) by nia.
  assert (0 <= Zpos m2 * A) by nia.
  assert (2 * (Zpos m2 * A) <= B * (Zpos m2 * A)) by (apply Z.mul_le_mono_nonneg_r; lia).
  lia.
Qed.

Lemma compare_cont_Eq m1 m2 :
  Pos.compare_cont Eq m1 m2 = (Zpos m1 ?= Zpos m2).
Proof. reflexivity. Qed.

Lemma compare_magnitudes m1 e1 m2 e2 :
  bounded prec emax m1 e1 = true -> bounded prec emax m2 e2 = true ->
  match e1 ?= e2 with
  | Lt => Lt
  | Gt => Gt
  | Eq => Pos.compare_cont Eq m1 m2
  end = (Zpos m1 * 2 ^ (e1 + 1074) ?= Zpos m2 * 2 ^ (e2 + 1074)).
Proof.
  intros H1 H2. destruct (Z.compare_spec e1 e2) as [He|He|He].
  - subst e2. rewrite compare_cont_Eq.
    apply bounded_range in H1 as (He1 & _).
    assert (HA : 0 < 2 ^ (e1 + 1074)) by (apply Z.pow_pos_nonneg; lia).
    rewrite !(Z.mul_comm (Zpos _)).
    apply Zmult_compare_compat_l. lia.
  - symmetry. apply Z.compare_lt_iff. now apply scaled_lt_exp.
  - symmetry. apply Z.compare_gt_iff. now apply scaled_lt_exp.
Qed.

Lemma scaled_pos m e : -1074 <= e -> 0 < Zpos m * 2 ^ (e + 1074).
Proof.
  intros H. apply Z.mul_pos_pos; [lia|]. apply Z.pow_pos_nonneg; lia.
Qed.

(** Comparison of valid B64.finite floats is comparison of their exact values. *)
Lemma SFcompare_scaled x y :
  valid_binary x = true -> valid_binary y = true ->
  B64.finite x = true -> B64.finite y = true ->
  SFcompare x y = Some (B64.scaled x ?= B64.scaled y).
Proof.
  destruct x as [sx|sx| |sx mx ex], y as [sy|sy| |sy my ey];
    unfold SFcompare, B64.scaled, B64.finite, valid_binary;
    try discriminate; intros Vx Vy _ _.
  - reflexivity.
  - pose proof (scaled_pos my ey ltac:(apply bounded_range in Vy; lia)).
    destruct sy; unfold cond_Zopp; f_equal; symmetry.
    + apply Z.compare_gt_iff. lia.
    + apply Z.compare_lt_iff. lia.
  - pose proof (scaled_pos mx ex ltac:(apply bounded_range in Vx; lia)).
    destruct sx; unfold cond_Zopp; f_equal; symmetry.
    + apply Z.compare_lt_iff. lia.
    + apply Z.compare_gt_iff. lia.
  - pose proof (scaled_pos mx ex ltac:(apply bounded_range in Vx; lia)).
    pose proof (scaled_pos my ey ltac:(apply bounded_range in Vy; lia)).
    destruct sx, sy; unfold cond_Zopp; f_equal.
    + rewrite Z.compare_opp.
      rewrite (Z.compare_antisym (Z.pos mx * _) (Z.pos my * _)).
      rewrite <- (compare_magnitudes _ _ _ _ Vx Vy).
      now destruct (Z.compare ex ey).
    + symmetry. apply Z.compare_lt_iff. lia.
    + symmetry. apply Z.compare_gt_iff. lia.
    + apply compare_magnitudes; assumption.
Qed.

(** *** Shifting *)

Lemma iter_pos_nat {A} (f : A -> A) p x :
  SpecFloat.iter_pos f p x = Nat.iter (Pos.to_nat p) f x.
Proof.
  revert x. induction p as [p IH|p IH|]; intros x; cbn [SpecFloat.iter_pos].
  - rewrite !IH, Pos2Nat.inj_xI, Nat.iter_succ_r.
    replace (2 * Pos.to_nat p)%nat with (Pos.to_nat p + Pos.to_nat p)%nat by lia.
    now rewrite Nat.iter_add.
  - rewrite !IH, Pos2Nat.inj_xO.
    replace (2 * Pos.to_nat p)%nat with (Pos.to_nat p + Pos.to_nat p)%nat by lia.
    now rewrite Nat.iter_add.
  - reflexivity.
Qed.

Lemma shr_1_double z : 0 < z -> shr_1 (B64.exact_record (2 * z)) = B64.exact_record z.
Proof. destruct z; try lia. reflexivity. Qed.

Lemma iter_shr_1_exact n z :
  0 < z ->
  Nat.iter n shr_1 (B64.exact_record (z * 2 ^ Z.of_nat n)) = B64.exact_record z.
Proof.
  revert z. induction n as [|n IH]; intros z Hz.
  - simpl. f_equal. lia.
  - rewrite Nat2Z.inj_succ, Z.pow_succ_r by lia.
    simpl. replace (z * (2 * 2 ^ Z.of_nat n)) with (2 * z * 2 ^ Z.of_nat n) by lia.
    rewrite IH by lia. now apply shr_1_double.
Qed.

Lemma shr_exact z e k :
  0 < z -> 0 <= k ->
  shr (B64.exact_record (z * 2 ^ k)) e k = (B64.exact_record z, e + k).
Proof.
  intros Hz Hk. destruct k as [|p|p]; try lia.
  - simpl. rewrite Z.mul_1_r, Z.add_0_r. reflexivity.
  - unfold shr. rewrite iter_pos_nat.
    rewrite <- (positive_nat_Z p) at 1. now rewrite iter_shr_1_exact.
Qed.

Lemma digits2_unique m d :
  2 ^ (d - 1) <= Zpos m < 2 ^ d -> Zpos (digits2_pos m) = d.
Proof.
  intros [Hlo Hhi]. pose proof (digits2_bounds m) as [Hlo' Hhi'].
  set (d' := Zpos (digits2_pos m)) in *.
  assert (0 < d).
  { destruct (Z.lt_trichotomy d 0) as [Hd|[Hd|Hd]]; [|subst d|exact Hd].
    - rewrite Z.pow_neg_r in Hhi by exact Hd. lia.
    - change (2 ^ 0) with 1 in Hhi. lia. }
  destruct (Z.lt_trichotomy d' d) as [Hlt|[Heq|Hgt]]; [|exact Heq|].
  - assert (2 ^ d' <= 2 ^ (d - 1)) by (apply Z.pow_le_mono_r; lia). lia.
  - assert (2 ^ d <= 2 ^ (d' - 1)) by (apply Z.pow_le_mono_r; lia). lia.
Qed.

Lemma digits2_shift m k p :
  0 <= k -> Zpos p = Zpos m * 2 ^ k ->
  Zpos (digits2_pos p) = Zpos (digits2_pos m) + k.
Proof.
  intros Hk Hp. apply digits2_unique. rewrite Hp.
  pose proof (digits2_bounds m) as [Hlo Hhi].
  replace (Zpos (digits2_pos m) + k - 1) with (Zpos (digits2_pos m) - 1 + k) by lia.
  rewrite !Z.pow_add_r by lia.
  assert (0 < 2 ^ k) by (apply Z.pow_pos_nonneg; lia).
  split; [apply Z.mul_le_mono_nonneg_r|apply Z.mul_lt_mono_pos_r]; lia.
Qed.

(** *** Rounding a representable value *)

Lemma fexp_canonical m e :
  bounded prec emax m e = true -> fexp prec emax (Zpos (digits2_pos m) + e) = e.
Proof.
  unfold bounded, canonical_mantissa. intros H.
  apply andb_prop in H as [H _]. now apply Z.eqb_eq in H.
Qed.

(** Rounding [m * 2^k] at exponent [e - k] gives back the valid float
    [(m, e)]: the shift by [k] loses no bit. *)
Lemma binary_round_aux_exact s m e k p :
  bounded prec emax m e = true -> 0 <= k -> Zpos p = Zpos m * 2 ^ k ->
  binary_round_aux prec emax s (Zpos p) (e - k) loc_Exact = S754_finite s m e.
Proof.
  intros Hb Hk Hp. unfold binary_round_aux, shr_fexp.
  unfold Zdigits2 at 1. rewrite (digits2_shift m k p Hk Hp).
  replace (Zpos (digits2_pos m) + k + (e - k)) with (Zpos (digits2_pos m) + e) by lia.
  rewrite (fexp_canonical _ _ Hb).
  replace (e - (e - k)) with k by lia.
  change (shr_record_of_loc (Zpos p) loc_Exact) with (B64.exact_record (Zpos p)).
  rewrite Hp, shr_exact by lia.
  cbn [B64.exact_record shr_m loc_of_shr_record round_nearest_even Zdigits2].
  replace (e - k + k) with e by lia.
  rewrite (fexp_canonical _ _ Hb), Z.sub_diag. cbn [shr_record_of_loc shr shr_m].
  unfold bounded in Hb. apply andb_prop in Hb as [_ Hb]. now rewrite Hb.
Qed.

Lemma iter_xO m d : Zpos (Pos.iter xO m d) = Zpos m * 2 ^ Zpos d.
Proof.
  induction d as [|d IH] using Pos.peano_ind.
  - simpl. lia.
  - rewrite Pos.iter_succ, Pos2Z.inj_xO, IH, Pos2Z.inj_succ, Z.pow_succ_r; lia.
Qed.

Lemma shl_align_fst m e e' :
  e' <= e -> Zpos (fst (shl_align m e e')) = Zpos m * 2 ^ (e - e').
Proof.
  intros H. unfold shl_align. destruct (e' - e) as [|d|d] eqn:E; try lia.
  - simpl. replace (e - e') with 0 by lia. lia.
  - simpl. rewrite iter_xO. f_equal. f_equal. lia.
Qed.

(** Rounding a number that is the value of a valid float gives that
    float. *)
Lemma binary_round_exact s p e m e' :
  bounded prec emax m e' = true -> -1074 <= e ->
  Zpos p * 2 ^ (e + 1074) = Zpos m * 2 ^ (e' + 1074) ->
  binary_round prec emax s p e = S754_finite s m e'.
Proof.
  intros Hb He Hv. pose proof (bounded_range _ _ Hb) as (He' & _).
  unfold binary_round.
  destruct (Z.le_gt_cases e e') as [Hle|Hgt].
  - (* the mantissa is shifted right by [e' - e] *)
    assert (Hp : Zpos p = Zpos m * 2 ^ (e' - e)).
    { replace (e' + 1074) with ((e' - e) + (e + 1074)) in Hv by lia.
      rewrite (Z.pow_add_r 2 (e' - e) (e + 1074)), Z.mul_assoc in Hv by lia.
      apply Z.mul_cancel_r in Hv; [exact Hv|].
      apply Z.pow_nonzero; lia. }
    rewrite (digits2_shift m (e' - e) p ltac:(lia) Hp).
    replace (Zpos (digits2_pos m) + (e' - e) + e) with (Zpos (digits2_pos m) + e') by lia.
    rewrite (fexp_canonical _ _ Hb).
    unfold shl_align. destruct (e' - e) as [|d|d] eqn:E; try lia.
    + replace e with (e' - 0) by lia. apply binary_round_aux_exact; [exact Hb|lia|].
      rewrite Hp. reflexivity.
    + replace e with (e' - Zpos d) by lia. apply binary_round_aux_exact; [exact Hb|lia|].
      exact Hp.
  - (* the mantissa is shifted left by [e - e'] *)
    assert (Hm : Zpos m = Zpos p * 2 ^ (e - e')).
    { replace (e + 1074) with ((e - e') + (e' + 1074)) in Hv by lia.
      rewrite (Z.pow_add_r 2 (e - e') (e' + 1074)), Z.mul_assoc in Hv by lia.
      apply Z.mul_cancel_r in Hv; [now symmetry|].
      apply Z.pow_nonzero; lia. }
    pose proof (digits2_shift p (e - e') m ltac:(lia) Hm) as Hd.
    replace (Zpos (digits2_pos p) + e) with (Zpos (digits2_pos m) + e') by lia.
    rewrite (fexp_canonical _ _ Hb).
    unfold shl_align. destruct (e' - e) as [|d|d] eqn:E; try lia.
    assert (Hi : Pos.iter xO p d = m).
    { apply Pos2Z.inj. rewrite iter_xO, Hm. f_equal. f_equal. lia. }
    rewrite Hi. replace e' with (e' - 0) at 1 by lia.
    apply binary_round_aux_exact; [exact Hb|lia|lia].
Qed.

Lemma binary_normalize_exact z e s m e' :
  bounded prec emax m e' = true -> -1074 <= e ->
  z * 2 ^ (e + 1074) = cond_Zopp s (Zpos m * 2 ^ (e' + 1074)) ->
  binary_normalize prec emax z e false = S754_finite s m e'.
Proof.
  intros Hb He Hv. pose proof (bounded_range _ _ Hb) as (He' & _).
  pose proof (scaled_pos m e' ltac:(lia)) as Hpos.
  assert (HA : 0 < 2 ^ (e + 1074)) by (apply Z.pow_pos_nonneg; lia).
  destruct z as [|p|p], s; unfold cond_Zopp in Hv; try nia; unfold binary_normalize.
  - apply binary_round_exact; [exact Hb|exact He|exact Hv].
  - apply binary_round_exact; [exact Hb|exact He|].
    change (Zneg p) with (- Zpos p) in Hv. lia.
Qed.

Lemma cond_Zopp_mul s a c : cond_Zopp s a * c = cond_Zopp s (a * c).
Proof. destruct s; simpl; lia. Qed.

(** The sum of two B64.finite non-zero floats is the rounding of the exact sum. *)
Lemma SFadd_finite sx mx ex sy my ey :
  -1074 <= ex -> -1074 <= ey ->
  exists z e,
    SFadd prec emax (S754_finite sx mx ex) (S754_finite sy my ey)
      = binary_normalize prec emax z e false /\
    -1074 <= e /\
    z * 2 ^ (e + 1074)
      = B64.scaled (S754_finite sx mx ex) + B64.scaled (S754_finite sy my ey).
Proof.
  intros Hx Hy. eexists _, (Z.min ex ey). split; [reflexivity|]. split; [lia|].
  rewrite Z.mul_add_distr_r, !cond_Zopp_mul, !shl_align_fst by lia.
  unfold B64.scaled. rewrite <- !Z.mul_assoc, <- !Z.pow_add_r by lia.
  do 2 f_equal; f_equal; f_equal; lia.
Qed.

(** Valid non-zero finite floats with the same value are the same. *)
Lemma scaled_inj x y :
  valid_binary x = true -> valid_binary y = true ->
  B64.scaled x = B64.scaled y -> B64.scaled x <> 0 -> B64.finite x = true -> B64.finite y = true ->
  x = y.
Proof.
  destruct x as [sx|sx| |sx mx ex], y as [sy|sy| |sy my ey];
    unfold B64.scaled, B64.finite, valid_binary; try discriminate;
    intros Vx Vy Hv Hn _ _; try congruence.
  - pose proof (scaled_pos mx ex ltac:(apply bounded_range in Vx; lia)).
    pose proof (scaled_pos my ey ltac:(apply bounded_range in Vy; lia)).
    assert (sx = sy) as <- by (destruct sx, sy; unfold cond_Zopp in *; lia).
    assert (Hm : Zpos mx * 2 ^ (ex + 1074) = Zpos my * 2 ^ (ey + 1074))
      by (destruct sx; unfold cond_Zopp in *; lia).
    assert (ex = ey) as <-.
    { destruct (Z.lt_trichotomy ex ey) as [Hlt|[Heq|Hgt]]; [|exact Heq|].
      - pose proof (scaled_lt_exp _ _ _ _ Vx Vy Hlt). lia.
      - pose proof (scaled_lt_exp _ _ _ _ Vy Vx Hgt). lia. }
    apply Z.mul_cancel_r in Hm; [congruence|].
    apply Z.pow_nonzero; [lia|]. apply bounded_range in Vx. lia.
Qed.

Lemma scaled_zero x :
  valid_binary x = true -> B64.finite x = true -> B64.scaled x = 0 -> B64.is_zero x = true.
Proof.
  destruct x as [sx|sx| |sx mx ex]; try discriminate; try reflexivity.
  unfold valid_binary, B64.scaled. intros V _ H.
  pose proof (scaled_pos mx ex ltac:(apply bounded_range in V; lia)).
  destruct sx; unfold cond_Zopp in H; lia.
Qed.

(** When the exact sum of two floats is a float, [SFadd] returns it. *)
Lemma SFadd_exact u v w :
  valid_binary u = true -> valid_binary v = true -> valid_binary w = true ->
  B64.finite u = true -> B64.finite v = true -> B64.finite w = true ->
  B64.scaled w = B64.scaled u + B64.scaled v ->
  if B64.is_zero w then B64.is_zero (SFadd prec emax u v) = true
  else SFadd prec emax u v = w.
Proof.
  intros Vu Vv Vw Fu Fv Fw Hs.
  destruct (B64.is_zero w) eqn:Zw.
  - assert (Hw : B64.scaled w = 0) by (destruct w; try discriminate; reflexivity).
    destruct u as [su|su| |su mu eu], v as [sv|sv| |sv mv ev]; try discriminate.
    + now destruct su, sv.
    + change (B64.scaled (S754_zero su)) with 0 in Hs.
      pose proof (scaled_zero _ Vv eq_refl ltac:(lia)). discriminate.
    + change (B64.scaled (S754_zero sv)) with 0 in Hs.
      pose proof (scaled_zero _ Vu eq_refl ltac:(lia)). discriminate.
    + destruct (SFadd_finite su mu eu sv mv ev) as (z & e & -> & He & Hz).
      { apply bounded_range in Vu. lia. } { apply bounded_range in Vv. lia. }
      rewrite <- Hs, Hw in Hz.
      assert (z = 0) as ->.
      { assert (0 < 2 ^ (e + 1074)) by (apply Z.pow_pos_nonneg; lia). nia. }
      reflexivity.
  - assert (Hw : B64.scaled w <> 0).
    { intros H. apply scaled_zero in H; [congruence|exact Vw|exact Fw]. }
    destruct u as [su|su| |su mu eu], v as [sv|sv| |sv mv ev]; try discriminate.
    + change (B64.scaled (S754_zero su)) with 0 in Hs.
      change (B64.scaled (S754_zero sv)) with 0 in Hs. lia.
    + change (B64.scaled (S754_zero su)) with 0 in Hs.
      symmetry. apply scaled_inj; try assumption; lia.
    + change (B64.scaled (S754_zero sv)) with 0 in Hs.
      change (S754_finite su mu eu = w). symmetry. apply scaled_inj; try assumption; lia.
    + destruct (SFadd_finite su mu eu sv mv ev) as (z & e & -> & He & Hz).
      { apply bounded_range in Vu. lia. } { apply bounded_range in Vv. lia. }
      destruct w as [sw|sw| |sw mw ew]; try discriminate.
      apply binary_normalize_exact; [exact Vw|exact He|].
      rewrite Hz, <- Hs. reflexivity.
Qed.

(** *** Signs *)

Lemma shr_1_nonneg mrs : 0 <= shr_m mrs -> 0 <= shr_m (shr_1 mrs).
Proof.
  destruct mrs as [m r s]. destruct m as [|[p|p|]|p]; simpl; lia.
Qed.

Lemma shr_nonneg mrs e n : 0 <= shr_m mrs -> 0 <= shr_m (fst (shr mrs e n)).
Proof.
  intros H. destruct n as [|p|p]; simpl; try exact H.
  rewrite iter_pos_nat. induction (Pos.to_nat p) as [|k IH]; simpl.
  - exact H.
  - now apply shr_1_nonneg.
Qed.

Lemma shr_record_of_loc_m m l : shr_m (shr_record_of_loc m l) = m.
Proof. now destruct l as [|[]]. Qed.

Lemma round_nearest_even_nonneg m l : 0 <= m -> 0 <= round_nearest_even m l.
Proof.
  intros H. destruct l as [|[]]; simpl; try lia. destruct (Z.even m); lia.
Qed.

Lemma binary_round_aux_sign s m e l :
  0 <= m -> B64.sign_of (binary_round_aux prec emax s m e l) = Some s.
Proof.
  intros Hm. unfold binary_round_aux, shr_fexp.
  destruct (shr (shr_record_of_loc m l) e _) as [mrs' e'] eqn:E1.
  assert (H1 : 0 <= shr_m mrs').
  { change mrs' with (fst (mrs', e')). rewrite <- E1.
    apply shr_nonneg. now rewrite shr_record_of_loc_m. }
  destruct (shr (shr_record_of_loc _ loc_Exact) e' _) as [mrs'' e''] eqn:E2.
  assert (H2 : 0 <= shr_m mrs'').
  { change mrs'' with (fst (mrs'', e'')). rewrite <- E2.
    apply shr_nonneg. rewrite shr_record_of_loc_m.
    now apply round_nearest_even_nonneg. }
  destruct (shr_m mrs'') as [|p|p]; try lia; [reflexivity|].
  now destruct (e'' <=? emax - prec).
Qed.

Lemma binary_normalize_sign z e :
  0 <= z -> B64.sign_of (binary_normalize prec emax z e false) = Some false.
Proof.
  intros Hz. destruct z as [|p|p]; try lia; [reflexivity|].
  unfold binary_normalize, binary_round.
  destruct (shl_align _ _ _) as [mz ez]. now apply binary_round_aux_sign.
Qed.

(** *** Negation and subtraction *)

(** Multiplying by [-1.0] flips the sign and nothing else. *)
Lemma SFmul_minus_one x :
  valid_binary x = true -> SFmul prec emax x B64.minus_one = SFopp x.
Proof.
  destruct x as [s|s| |s m e]; intros V; simpl;
    [now destruct s|now destruct s|reflexivity|].
  replace (xorb s true) with (negb s) by now destruct s.
  replace (e + -52) with (e - 52) by lia.
  apply binary_round_aux_exact; [exact V|lia|].
  rewrite Pos2Z.inj_mul. reflexivity.
Qed.

Lemma SFsub_add_opp x y :
  SFsub prec emax x y = SFadd prec emax x (SFopp y).
Proof.
  destruct x as [sx|sx| |sx mx ex], y as [sy|sy| |sy my ey]; simpl;
    try reflexivity; now destruct sx, sy.
Qed.

Lemma SFopp_valid x : valid_binary (SFopp x) = valid_binary x.
Proof. now destruct x. Qed.

Lemma scaled_opp x : B64.scaled (SFopp x) = - B64.scaled x.
Proof. destruct x as [s|s| |s m e]; simpl; try reflexivity. destruct s; simpl; lia. Qed.

Lemma finite_opp x : B64.finite (SFopp x) = B64.finite x.
Proof. now destruct x. Qed.

(** *** The balance after a withdrawal *)

(** If [a <= b] then [b + (-a)] is [NaN] or has the sign [+]; it is [NaN]
    only when [a] is infinite. *)
Lemma SFadd_opp_sign a b :
  valid_binary a = true -> valid_binary b = true ->
  SFleb a b = true ->
  match B64.sign_of (SFadd prec emax b (SFopp a)) with
  | Some s => s = false \/ B64.is_zero (SFadd prec emax b (SFopp a)) = true
  | None => B64.finite a = false
  end.
Proof.
  intros Va Vb Hle. unfold SFleb in Hle.
  destruct (B64.finite a) eqn:Fa, (B64.finite b) eqn:Fb.
  - rewrite (SFcompare_scaled a b Va Vb Fa Fb) in Hle.
    assert (Hs : B64.scaled a <= B64.scaled b).
    { destruct (Z.compare_spec (B64.scaled a) (B64.scaled b)); try discriminate; lia. }
    clear Hle.
    destruct a as [sa|sa| |sa ma ea], b as [sb|sb| |sb mb eb]; try discriminate.
    + simpl. destruct sb, sa; simpl; auto.
    + simpl. pose proof (scaled_pos mb eb ltac:(apply bounded_range in Vb; lia)).
      left. destruct sb; [|reflexivity]. simpl in Hs. lia.
    + simpl. pose proof (scaled_pos ma ea ltac:(apply bounded_range in Va; lia)).
      left. destruct sa; [reflexivity|]. simpl in Hs. lia.
    + destruct (SFadd_finite sb mb eb (negb sa) ma ea) as (z & e & Hadd & He & Hz).
      { apply bounded_range in Vb. lia. } { apply bounded_range in Va. lia. }
      change (SFopp (S754_finite sa ma ea)) with (S754_finite (negb sa) ma ea).
      rewrite Hadd.
      change (S754_finite (negb sa) ma ea) with (SFopp (S754_finite sa ma ea)) in Hz.
      rewrite scaled_opp in Hz.
      assert (0 <= z).
      { assert (0 < 2 ^ (e + 1074)) by (apply Z.pow_pos_nonneg; lia). nia. }
      rewrite binary_normalize_sign by assumption. now left.
  - destruct a as [sa|sa| |sa ma ea], b as [sb|sb| |sb mb eb]; try discriminate;
      simpl in *; destruct sb; try discriminate; auto.
  - destruct a as [sa|sa| |sa ma ea], b as [sb|sb| |sb mb eb]; try discriminate;
      simpl in *; destruct sa, sb; try discriminate; auto.
  - destruct a as [sa|sa| |sa ma ea], b as [sb|sb| |sb mb eb]; try discriminate;
      simpl in *; destruct sa, sb; try discriminate; simpl; auto.
Qed.

End B64Facts.

(** ** Facts about primitive floats *)

Module FloatFacts.
Local Open Scope float_scope.

Lemma Prim2SF_minus_one : Prim2SF (-1) = B64.minus_one.
Proof. reflexivity. Qed.

Lemma Prim2SF_zero : Prim2SF 0 = S754_zero false.
Proof. reflexivity. Qed.

(** [x * -1.0] is [-x], and [x + -y] is [x - y]. *)
Lemma mul_minus_one x : x * (-1) = - x.
Proof.
  apply Prim2SF_inj. rewrite mul_spec, opp_spec, Prim2SF_minus_one.
  apply B64Facts.SFmul_minus_one, Prim2SF_valid.
Qed.

Lemma add_opp x y : x + - y = x - y.
Proof.
  apply Prim2SF_inj. rewrite add_spec, sub_spec, opp_spec.
  symmetry. apply B64Facts.SFsub_add_opp.
Qed.

Lemma SFcompare_refl x : x <> S754_nan -> SFcompare x x = Some Eq.
Proof.
  destruct x as [s|s| |s m e]; intros H; try congruence; simpl; try now destruct s.
  rewrite Z.compare_refl, Pos.compare_cont_refl. now destruct s.
Qed.

Lemma is_finite_spec x : is_finite x = B64.finite (Prim2SF x).
Proof.
  unfold is_finite, is_nan, is_infinity.
  rewrite !FloatAxioms.eqb_spec, abs_spec. change (Prim2SF infinity) with (S754_infinity false).
  unfold SFeqb. destruct (Prim2SF x) as [s|s| |s m e]; simpl; try reflexivity.
  - now destruct s.
  - rewrite Z.compare_refl, Pos.compare_cont_refl. now destruct s.
Qed.

(** The balance left by a successful withdrawal is never negative, and it
    is non-negative unless the amount is infinite. *)
Lemma withdrawn_balance_sign amount balance :
  (amount <=? balance) = true ->
  (balance + amount * (-1) <? 0) = false /\
  (is_finite amount = true -> (0 <=? balance + amount * (-1)) = true).
Proof.
  intros Hle. rewrite mul_minus_one, is_finite_spec.
  rewrite FloatAxioms.ltb_spec, FloatAxioms.leb_spec, add_spec, opp_spec, Prim2SF_zero.
  rewrite FloatAxioms.leb_spec in Hle.
  pose proof (B64Facts.SFadd_opp_sign _ _ (Prim2SF_valid amount) (Prim2SF_valid balance) Hle) as H.
  unfold SF64add. destruct (SFadd prec emax _ _) as [s|s| |s m e]; simpl in H.
  - now split.
  - destruct H as [->|H]; [now split|discriminate].
  - rewrite H. now split.
  - destruct H as [->|H]; [now split|discriminate].
Qed.

(** [x < y] excludes [y <= x]. *)
Lemma SFcompare_antisym x y :
  SFcompare y x = option_map CompOpp (SFcompare x y).
Proof.
  destruct x as [sx|sx| |sx mx ex], y as [sy|sy| |sy my ey]; simpl;
    try reflexivity; try (now destruct sx); try (now destruct sy);
    try (now destruct sx, sy).
  change (Pos.compare_cont Eq my mx) with (Pos.compare my mx).
  change (Pos.compare_cont Eq mx my) with (Pos.compare mx my).
  rewrite (Z.compare_antisym ex ey), (Pos.compare_antisym mx my).
  destruct sx, sy; try reflexivity; f_equal;
    destruct (ex ?= ey)%Z; simpl; try reflexivity;
    now destruct (Pos.compare mx my).
Qed.

Lemma ltb_not_leb x y : (x <? y) = true -> (y <=? x) = false.
Proof.
  rewrite FloatAxioms.ltb_spec, FloatAxioms.leb_spec. unfold SFltb, SFleb.
  rewrite (SFcompare_antisym (Prim2SF x) (Prim2SF y)).
  now destruct (SFcompare (Prim2SF x) (Prim2SF y)) as [[]|].
Qed.

Lemma exact_value_inv x v :
  Float.exact_value x = Some v ->
  B64.finite (Prim2SF x) = true /\ B64.scaled (Prim2SF x) = v.
Proof.
  unfold Float.exact_value. destruct (B64.finite (Prim2SF x)); [|discriminate].
  intros [= <-]. now split.
Qed.

(** Adding [X] and taking it away again gives the balance back when the
    sum is exact; whether the funds check passes in between is decided by
    the sign of the balance. *)
Lemma round_trip_exact b X vb vx :
  Float.exact_value b = Some vb ->
  Float.exact_value X = Some vx ->
  Float.exact_value (b + X) = Some (vb + vx)%Z ->
  (X <=? b + X) = (0 <=? vb)%Z /\
  (b + X + X * (-1) =? b) = true.
Proof.
  intros Hb HX Hs.
  apply exact_value_inv in Hb as [Fb Sb], HX as [FX SX], Hs as [Fs Ss].
  split.
  - rewrite FloatAxioms.leb_spec. unfold SFleb.
    rewrite (B64Facts.SFcompare_scaled _ _ (Prim2SF_valid X) (Prim2SF_valid (b + X)) FX Fs).
    rewrite SX, Ss.
    destruct (Z.compare_spec vx (vb + vx)), (Z.leb_spec 0 vb); try reflexivity; lia.
  - rewrite mul_minus_one, FloatAxioms.eqb_spec, add_spec, opp_spec.
    pose proof (B64Facts.SFadd_exact (Prim2SF (b + X)) (SFopp (Prim2SF X)) (Prim2SF b)) as H.
    rewrite B64Facts.SFopp_valid, B64Facts.finite_opp, B64Facts.scaled_opp in H.
    specialize (H (Prim2SF_valid _) (Prim2SF_valid _) (Prim2SF_valid _) Fs FX Fb
                  ltac:(lia)).
    unfold SF64add, SFeqb. destruct (B64.is_zero (Prim2SF b)) eqn:Zb.
    + destruct (SFadd prec emax _ _); try discriminate.
      now destruct (Prim2SF b).
    + rewrite H, SFcompare_refl; [reflexivity|].
      intros E. rewrite E in Fb. discriminate.
Qed.

End FloatFacts.

(** ** Facts about the ledger operations *)

Section Ledger.
Local Open Scope float_scope.
Import FloatFacts.

Lemma sum_amounts_nil : sum_amounts [] = 0.
Proof. reflexivity. Qed.

Lemma sum_amounts_snoc l element :
  sum_amounts (l ++ [element]) = sum_amounts l + amount element.
Proof. unfold sum_amounts. now rewrite rev_unit. Qed.

Lemma balance_loop_sum l : balance_loop l 0 = sum_amounts l.
Proof.
  unfold balance_loop, sum_amounts. now rewrite fold_left_rev_right.
Qed.

Lemma get_balance_spec w self c :
  objects w !! self = Some c ->
  get_balance self w = Returns (sum_amounts (ledger c)) w.
Proof.
  intros H. unfold get_balance, bind, deref, ret. now rewrite H, balance_loop_sum.
Qed.

Lemma check_funds_spec w self c amount :
  objects w !! self = Some c ->
  check_funds self amount w = Returns (amount <=? sum_amounts (ledger c)) w.
Proof.
  intros H. unfold check_funds, bind. now rewrite (get_balance_spec _ _ _ H).
Qed.

Lemma deposit_spec w self c amount description :
  objects w !! self = Some c ->
  deposit self amount description w
    = Returns tt (appended w self c (mkLedgerElement amount description)).
Proof. intros H. unfold deposit, ledger_append. now rewrite H. Qed.

Lemma withdraw_spec w self c amount description :
  objects w !! self = Some c ->
  withdraw self amount description w =
    if amount <=? sum_amounts (ledger c)
    then Returns true (appended w self c (mkLedgerElement (- amount) description))
    else Returns false w.
Proof.
  intros H. unfold withdraw, bind. rewrite (check_funds_spec _ _ _ _ H).
  destruct (amount <=? sum_amounts (ledger c)); [|reflexivity].
  unfold ledger_append, ret. now rewrite H, mul_minus_one.
Qed.

Lemma appended_lookup w self c element :
  objects (appended w self c element) !! self
    = Some (mkCategory (name c) (ledger c ++ [element])).
Proof. unfold appended. simpl. apply lookup_insert_eq. Qed.

Lemma appended_lookup_ne w self c element other :
  self <> other ->
  objects (appended w self c element) !! other = objects w !! other.
Proof. intros H. unfold appended. simpl. now apply lookup_insert_ne. Qed.

(** What [transfer] does, whether or not the two objects are the same:
    the second entry is appended to the destination as it is after the
    withdrawal. *)
Lemma transfer_spec w self destination src dst amount :
  objects w !! self = Some src ->
  objects w !! destination = Some dst ->
  transfer self amount destination w =
    if amount <=? sum_amounts (ledger src)
    then
      let w1 := appended w self src (transfer_to_entry amount dst) in
      match objects w1 !! destination with
      | Some dst1 =>
          Returns true (appended w1 destination dst1 (transfer_from_entry amount src))
      | None => NoSuchObject
      end
    else Returns false w.
Proof.
  intros Hs Hd. unfold transfer, bind. rewrite (check_funds_spec _ _ _ _ Hs).
  destruct (amount <=? sum_amounts (ledger src)) eqn:E; [|reflexivity].
  unfold deref at 1. rewrite Hd.
  rewrite (withdraw_spec _ _ _ _ _ Hs), E.
  unfold deref. rewrite appended_lookup. cbn [name].
  unfold deposit, ledger_append, transfer_to_entry, transfer_from_entry.
  destruct (objects (appended w self src _) !! destination); reflexivity.
Qed.

(** Between two different objects the destination is untouched by the
    withdrawal. *)
Lemma transfer_distinct w self destination src dst amount :
  objects w !! self = Some src ->
  objects w !! destination = Some dst ->
  self <> destination ->
  transfer self amount destination w =
    if amount <=? sum_amounts (ledger src)
    then Returns true
           (appended (appended w self src (transfer_to_entry amount dst))
                     destination dst (transfer_from_entry amount src))
    else Returns false w.
Proof.
  intros Hs Hd Hne. rewrite (transfer_spec _ _ _ _ _ amount Hs Hd). cbv zeta.
  now rewrite (appended_lookup_ne _ _ _ _ _ Hne), Hd.
Qed.

(** C1.  At every point of any sequence of deposits, withdrawals and
    transfers, [get_balance()] on a category returns the sum of the
    amounts of the entries now in its ledger, [0] when the ledger is
    empty, and leaves the world (every ledger, and the output) as it
    was. *)
Theorem get_balance_is_sum (ops : list op) (w w' : world) (self : ref)
    (c : Category) :
  run_ops ops w = Returns tt w' ->
  objects w' !! self = Some c ->
  get_balance self w' = Returns (sum_amounts (ledger c)) w' /\
  (ledger c = [] -> sum_amounts (ledger c) = 0) /\
  (forall element rest,
     ledger c = rest ++ [element] ->
     sum_amounts (ledger c) = sum_amounts rest + amount element).
Proof.
  intros _ H. split; [now apply get_balance_spec|]. split.
  - now intros ->.
  - intros element rest ->. apply sum_amounts_snoc.
Qed.

Lemma get_balance_is_sum_witness :
  get_balance Examples.food Examples.food_world
    = Returns 794.75 Examples.food_world.
Proof.
  exact (proj1 (get_balance_is_sum Examples.food_ops Examples.new_food_world
                  Examples.food_world Examples.food Examples.food_category
                  eq_refl eq_refl)).
Defined.

End Ledger.

(** ** Withdrawals and transfers *)

Section Guards.
Local Open Scope float_scope.
Import FloatFacts.

(** C2.  [withdraw(amount, description)] returns true and appends the
    single entry [{-amount, description}] to the ledger exactly when the
    balance at the check is at least [amount]; otherwise it returns false
    and leaves the world, hence the ledger and the balance, unchanged. *)
Theorem withdraw_iff_funds (w : world) (self : ref) (c : Category)
    (amount : float) (description : str) :
  objects w !! self = Some c ->
  let balance := sum_amounts (ledger c) in
  ((amount <=? balance) = true /\
   withdraw self amount description w
     = Returns true (appended w self c (mkLedgerElement (- amount) description)) /\
   objects (appended w self c (mkLedgerElement (- amount) description)) !! self
     = Some (mkCategory (name c)
               (ledger c ++ [mkLedgerElement (- amount) description])))
  \/
  ((amount <=? balance) = false /\
   withdraw self amount description w = Returns false w /\
   get_balance self w = Returns balance w).
Proof.
  intros H balance. rewrite (withdraw_spec _ _ _ _ _ H). fold balance.
  destruct (amount <=? balance).
  - left. split; [reflexivity|]. split; [reflexivity|]. apply appended_lookup.
  - right. split; [reflexivity|]. split; [reflexivity|].
    now apply get_balance_spec.
Qed.

Lemma sum_after_withdrawal c amount description :
  sum_amounts (ledger c ++ [mkLedgerElement (- amount) description])
    = sum_amounts (ledger c) - amount.
Proof. rewrite sum_amounts_snoc. apply add_opp. Qed.

(** C3, amended.  For two different categories: if the balance of the
    source is at least [amount], [transfer] returns true, appends
    [{-amount, "Transfer to " + destination.name}] to the source, whose
    balance goes down by [amount], and appends
    [{amount, "Transfer from " + source.name}] to the destination, whose
    balance goes up by [amount]; if the balance is smaller (or not
    comparable), it returns false and changes nothing. *)
Theorem transfer_between_two (w : world) (self destination : ref)
    (src dst : Category) (amount : float) :
  objects w !! self = Some src ->
  objects w !! destination = Some dst ->
  self <> destination ->
  transfer_claim w self amount destination src dst /\
  ((amount <=? sum_amounts (ledger src)) = true ->
   transfer self amount destination w
     = Returns true
         (appended (appended w self src (transfer_to_entry amount dst))
                   destination dst (transfer_from_entry amount src))) /\
  ((amount <=? sum_amounts (ledger src)) = false ->
   transfer self amount destination w = Returns false w).
Proof.
  intros Hs Hd Hne.
  pose proof (transfer_distinct _ _ _ _ _ amount Hs Hd Hne) as T.
  split; [split|split].
  - intros Hle. rewrite Hle in T. eexists _, _, _. split; [exact T|].
    split; [|split; [apply appended_lookup|]].
    + rewrite appended_lookup_ne by congruence. apply appended_lookup.
    + cbn [ledger]. split; [|split; [|split]].
      * apply elem_of_app. right. apply list_elem_of_singleton. reflexivity.
      * apply elem_of_app. right. apply list_elem_of_singleton. reflexivity.
      * apply sum_after_withdrawal.
      * apply sum_amounts_snoc.
  - intros Hlt. rewrite T.
    replace (amount <=? sum_amounts (ledger src)) with false; [reflexivity|].
    symmetry. now apply ltb_not_leb.
  - intros Hle. now rewrite Hle in T.
  - intros Hle. now rewrite Hle in T.
Qed.

(** C3 fails when a category transfers to itself: the call succeeds, both
    entries land in the one ledger and the balance is what it was. *)
Lemma transfer_to_itself :
  ~ transfer_claim Examples.hundred_world Examples.food 30 Examples.food
      Examples.food_100 Examples.food_100.
Proof.
  intros [H _].
  destruct (H eq_refl) as (w' & src' & dst' & T & Ls & _ & _ & _ & Hsum & _).
  vm_compute in T. injection T as <-.
  vm_compute in Ls. injection Ls as <-.
  apply (f_equal (fun x => x =? 70)) in Hsum.
  vm_compute in Hsum. discriminate.
Qed.

Lemma transfer_between_two_witness :
  transfer Examples.food 50 Examples.auto Examples.two_world
    = Returns true
        (appended (appended Examples.two_world Examples.food Examples.food_900
                     (transfer_to_entry 50 Examples.auto_empty))
                  Examples.auto Examples.auto_empty
                  (transfer_from_entry 50 Examples.food_900)).
Proof.
  refine (proj1 (proj2 (transfer_between_two Examples.two_world Examples.food Examples.auto
                          Examples.food_900 Examples.auto_empty 50 _ _ _)) _).
  - reflexivity.
  - reflexivity.
  - discriminate.
  - reflexivity.
Defined.

Lemma withdraw_iff_funds_witness :
  withdraw Examples.food 105.25 (lit "groceries") Examples.two_world
    = Returns true
        (appended Examples.two_world Examples.food Examples.food_900
           (mkLedgerElement (-105.25) (lit "groceries"))).
Proof.
  destruct (withdraw_iff_funds Examples.two_world Examples.food Examples.food_900 105.25
              (lit "groceries") eq_refl) as [(_ & H & _)|(H & _)].
  - exact H.
  - vm_compute in H. discriminate H.
Defined.

(** The balance a successful withdrawal leaves satisfies [post] as soon as
    [balance - amount] does whenever the funds check holds. *)
Lemma guarded_post (post : float -> Prop) w self c amount :
  objects w !! self = Some c ->
  ((amount <=? sum_amounts (ledger c)) = true ->
   post (sum_amounts (ledger c) - amount)) ->
  (forall description,
     guarded post (withdraw self amount description) w self amount c) /\
  (forall destination,
     destination <> self ->
     guarded post (transfer self amount destination) w self amount c).
Proof.
  intros H Hpost. split.
  - intros description ok w' Hw. rewrite (withdraw_spec _ _ _ _ _ H) in Hw.
    destruct (amount <=? sum_amounts (ledger c)) eqn:E;
      injection Hw as <- <-; [|reflexivity].
    split; [reflexivity|].
    eexists. split; [apply appended_lookup|].
    cbn [ledger]. rewrite sum_after_withdrawal. now apply Hpost.
  - intros destination Hne ok w' Hw.
    destruct (objects w !! destination) as [dst|] eqn:Hd.
    + rewrite (transfer_distinct w self destination c dst amount H Hd
                 ltac:(congruence)) in Hw.
      destruct (amount <=? sum_amounts (ledger c)) eqn:E;
        injection Hw as <- <-; [|reflexivity].
      split; [reflexivity|].
      eexists. split.
      * rewrite appended_lookup_ne by exact Hne. apply appended_lookup.
      * cbn [ledger]. unfold transfer_to_entry.
        rewrite sum_after_withdrawal. now apply Hpost.
    + unfold transfer, bind in Hw. rewrite (check_funds_spec _ _ _ _ H) in Hw.
      destruct (amount <=? sum_amounts (ledger c)).
      * unfold deref in Hw. rewrite Hd in Hw. discriminate.
      * now injection Hw as <- <-.
Qed.

(** C4, amended.  An entry is appended by [withdraw], or by [transfer] on
    its source, only when the balance was at least [amount] at the check;
    the balance of the category right after a successful [withdraw], or
    after a successful [transfer] to another category, is never negative,
    and it is at least zero when [amount] is finite. *)
Theorem balance_after_withdrawal (w : world) (self : ref) (c : Category)
    (amount : float) :
  objects w !! self = Some c ->
  ((forall description,
      guarded never_negative (withdraw self amount description) w self amount c) /\
   (forall destination,
      destination <> self ->
      guarded never_negative (transfer self amount destination) w self amount c)) /\
  (is_finite amount = true ->
   (forall description,
      guarded nonnegative (withdraw self amount description) w self amount c) /\
   (forall destination,
      destination <> self ->
      guarded nonnegative (transfer self amount destination) w self amount c)).
Proof.
  intros H. split; [|intros Hfin]; apply guarded_post; try exact H; intros Hle;
    rewrite <- add_opp, <- mul_minus_one;
    destruct (withdrawn_balance_sign _ _ Hle) as [Hn Hp].
  - exact Hn.
  - exact (Hp Hfin).
Qed.

(** C4 fails for a transfer of a category to itself: with a balance of -10
    a transfer of -20 passes the check, and the balance is -10 after it. *)
Lemma transfer_to_itself_negative :
  ~ guarded never_negative (transfer Examples.food (-20) Examples.food) Examples.overdrawn_world Examples.food (-20)
      Examples.food_overdrawn.
Proof.
  intros H.
  pose proof (H true _ eq_refl) as (_ & c' & L & N).
  vm_compute in L. injection L as <-.
  vm_compute in N. discriminate.
Qed.

Lemma balance_after_withdrawal_witness :
  guarded nonnegative (withdraw Examples.food 105.25 (lit "groceries"))
    Examples.two_world Examples.food 105.25 Examples.food_900.
Proof.
  exact (proj1 (proj2 (balance_after_withdrawal Examples.two_world Examples.food
                         Examples.food_900 105.25 eq_refl) eq_refl)
               (lit "groceries")).
Defined.

(** C5, amended.  If the balance [b] of a category is not negative and
    the sum [b + X] is a float exactly, then [deposit(X)] followed by
    [withdraw(X)] succeeds, appends the entries [X] and [-X], and brings
    [get_balance()] back to [b]. *)
Theorem round_trip_when_exact (w : world) (self : ref) (c : Category)
    (X : float) (vb vx : Z) :
  objects w !! self = Some c ->
  Float.exact_value (sum_amounts (ledger c)) = Some vb ->
  Float.exact_value X = Some vx ->
  Float.exact_value (sum_amounts (ledger c) + X) = Some (vb + vx)%Z ->
  (0 <= vb)%Z ->
  round_trip_claim w self X c /\
  exists w1 w2,
    deposit self X [] w = Returns tt w1 /\
    withdraw self X [] w1 = Returns true w2 /\
    objects w2 !! self
      = Some (mkCategory (name c)
                (ledger c ++ [mkLedgerElement X []; mkLedgerElement (- X) []])).
Proof.
  intros H Hb HX Hs Hpos.
  destruct (round_trip_exact _ _ _ _ Hb HX Hs) as [Hle Heq].
  assert (Hle' : (X <=? sum_amounts (ledger c) + X) = true).
  { rewrite Hle. now apply Z.leb_le. }
  pose proof (deposit_spec w self c X [] H) as D.
  set (w1 := appended w self c (mkLedgerElement X [])) in *.
  pose proof (appended_lookup w self c (mkLedgerElement X [])) as L1. fold w1 in L1.
  pose proof (withdraw_spec w1 self _ X [] L1) as W.
  cbn [ledger] in W. rewrite sum_amounts_snoc in W. cbn [amount] in W.
  rewrite Hle' in W.
  set (w2 := appended w1 self _ _) in W.
  assert (L2 : objects w2 !! self
               = Some (mkCategory (name c)
                         (ledger c ++ [mkLedgerElement X []; mkLedgerElement (- X) []]))).
  { unfold w2. rewrite appended_lookup. cbn [name ledger].
    now rewrite <- app_assoc. }
  split.
  - eexists w1, true, w2, _. split; [exact D|]. split; [exact W|]. split; [exact L2|].
    cbn [ledger].
    change (ledger c ++ [mkLedgerElement X []; mkLedgerElement (- X) []])
      with (ledger c ++ ([mkLedgerElement X []] ++ [mkLedgerElement (- X) []])).
    rewrite app_assoc, !sum_amounts_snoc. cbn [amount].
    rewrite <- mul_minus_one. exact Heq.
  - exists w1, w2. now split.
Qed.

(** C5 fails when the balance is negative, for the withdrawal is refused,
    and when the sum is rounded: 0.1 + 0.2 - 0.2 is not 0.1. *)
Lemma round_trip_fails :
  ~ round_trip_claim Examples.overdrawn_world Examples.food 3 Examples.food_overdrawn /\
  ~ round_trip_claim Examples.tenth_world Examples.food Examples.fifth Examples.food_tenth.
Proof.
  split; intros (w1 & ok & w2 & c2 & D & W & L & E);
    vm_compute in D; injection D as <-;
    vm_compute in W; injection W as <- <-;
    vm_compute in L; injection L as <-;
    vm_compute in E; discriminate.
Qed.

Lemma round_trip_when_exact_witness :
  round_trip_claim Examples.two_world Examples.food 105.25 Examples.food_900.
Proof.
  refine (proj1 (round_trip_when_exact Examples.two_world Examples.food Examples.food_900
                   105.25 _ _ eq_refl eq_refl eq_refl eq_refl _)).
  vm_compute. discriminate.
Defined.

End Guards.

(** ** The spend chart *)

Section Chart.
Import FloatFacts.

Lemma withdraws_loop_spec categories : forall acc w withdraws w',
  withdraws_loop categories acc w = Returns withdraws w' ->
  w' = w /\
  exists cats,
    Forall2 (fun category c => objects w !! category = Some c) categories cats /\
    withdraws
      = acc ++ map (fun c => mkWithdraw (name c) (withdraw_sum (ledger c))) cats.
Proof.
  induction categories as [|category rest IH]; intros acc w withdraws w' H.
  - injection H as <- <-. split; [reflexivity|]. exists []. split; [constructor|].
    now rewrite app_nil_r.
  - cbn [withdraws_loop] in H. unfold bind, deref in H.
    destruct (objects w !! category) as [c|] eqn:L; [|discriminate].
    destruct (IH _ _ _ _ H) as (-> & cats & HF & ->). split; [reflexivity|].
    exists (c :: cats). split; [now constructor|].
    now rewrite <- app_assoc.
Qed.

Lemma x_axis_loop_spec overall withdraws : forall acc m x_axis m',
  x_axis_loop overall withdraws acc m = Ok (x_axis, m') ->
  exists bars,
    x_axis = acc ++ bars /\
    Forall2 (fun withdraw x_element =>
               x_name x_element = w_name withdraw /\
               withdraw_percent overall (w_amount withdraw)
                 = Ok (x_value x_element))
            withdraws bars.
Proof.
  induction withdraws as [|withdraw rest IH]; intros acc m x_axis m' H.
  - injection H as <- <-. exists []. split; [now rewrite app_nil_r|constructor].
  - cbn [x_axis_loop] in H. unfold rbind at 1 in H.
    destruct (withdraw_percent overall (w_amount withdraw)) as [p|e] eqn:E;
      [|discriminate].
    destruct (IH _ _ _ _ H) as (bars & -> & HF).
    exists (mkXAxis (w_name withdraw) p :: bars). split.
    + now rewrite <- app_assoc.
    + constructor; [now split|exact HF].
Qed.

(** A zero total makes the first percentage fail. *)
Lemma x_axis_loop_zero overall withdraw rest acc m :
  is_zero overall = true ->
  x_axis_loop overall (withdraw :: rest) acc m = Raise ZeroDivisionError.
Proof.
  intros H. cbn [x_axis_loop]. unfold withdraw_percent, Float.truediv.
  now rewrite H.
Qed.

(** C7, amended.  When there is at least one category and the total of
    the withdrawals is zero, [create_spend_chart] raises
    [ZeroDivisionError]: it returns no chart and prints nothing. *)
Theorem zero_total_raises (w : world) (categories : list ref) :
  categories <> [] ->
  zero_total_claim w categories /\
  forall withdraws,
    withdraws_loop categories [] w = Returns withdraws w ->
    is_zero (overall_loop withdraws) = true ->
    create_spend_chart categories w = Raises ZeroDivisionError w.
Proof.
  intros Hne.
  assert (H : forall withdraws,
             withdraws_loop categories [] w = Returns withdraws w ->
             is_zero (overall_loop withdraws) = true ->
             create_spend_chart categories w = Raises ZeroDivisionError w).
  { intros withdraws Hw Hz. unfold create_spend_chart, bind. rewrite Hw.
    destruct (withdraws_loop_spec _ _ _ _ _ Hw) as (_ & cats & HF & ->).
    destruct HF as [|category c rest cats' _ _]; [congruence|].
    cbn [app map]. unfold lift. now rewrite x_axis_loop_zero. }
  split; [|exact H].
  intros withdraws Hw Hz. exists w. now apply (H withdraws).
Qed.

(** C7 fails for the empty list of categories: the total is zero and the
    chart is returned. *)
Lemma zero_total_of_no_category : ~ zero_total_claim w0 [].
Proof.
  intros H. destruct (H [] eq_refl eq_refl) as [w' E].
  vm_compute in E. discriminate.
Qed.

Lemma zero_total_raises_witness :
  create_spend_chart [Examples.food] Examples.saved_world
    = Raises ZeroDivisionError Examples.saved_world.
Proof.
  refine (proj2 (zero_total_raises Examples.saved_world [Examples.food] _)
                [mkWithdraw (lit "Food") 0] eq_refl eq_refl).
  discriminate.
Defined.

(** The withdrawals of a category: the negative amounts of its ledger,
    each counted by its absolute value, added up in ledger order. *)
Lemma negative_amount_abs x : (x <? 0)%float = true -> (x * (-1))%float = abs x.
Proof.
  intros H. rewrite mul_minus_one. apply Prim2SF_inj.
  rewrite opp_spec, abs_spec. rewrite FloatAxioms.ltb_spec in H.
  change (Prim2SF 0) with (S754_zero false) in H. unfold SFltb in H.
  destruct (Prim2SF x) as [s|s| |s m e]; try discriminate;
    destruct s; try discriminate; reflexivity.
Qed.

Lemma withdraw_sum_negatives l :
  withdraw_sum l
    = fold_left (fun s element => (s + abs (amount element))%float)
        (filter (fun element => (amount element <? 0)%float = true) l)
        0%float.
Proof.
  unfold withdraw_sum.
  assert (H : forall s,
             fold_left
               (fun withdraw_sum ledger_element =>
                  if (amount ledger_element <? 0)%float
                  then (withdraw_sum + amount ledger_element * (-1))%float
                  else withdraw_sum) l s
             = fold_left (fun s element => (s + abs (amount element))%float)
                 (filter (fun element => (amount element <? 0)%float = true) l) s);
    [|apply H].
  induction l as [|element l IH]; intros s; [reflexivity|].
  cbn [fold_left]. rewrite IH.
  unfold filter at 2. cbn [list_filter].
  destruct (decide _) as [E|E].
  - rewrite E. cbn [fold_left]. now rewrite negative_amount_abs.
  - destruct (amount element <? 0)%float; [congruence|reflexivity].
Qed.

(** C6 at a category that is alone and spent 97: the code divides first,
    [100.0 / 97 * 97] is [99.99999999999999], and the bar is 90: the chart
    leaves the rows 100 of the only category blank.  The share of the
    category is 100 percent, which is what the formula of the
    specification gives. *)
Lemma percent_of_sole_spender :
  withdraws_loop [Examples.food] [] Examples.spent_97_world
    = Returns [mkWithdraw (lit "Food") 97] Examples.spent_97_world /\
  overall_loop [mkWithdraw (lit "Food") 97] = 97%float /\
  (100 / 97 * 97 <? 100)%float = true /\
  withdraw_percent 97 97 = Ok 90%Z /\
  percent_claim 97 97 = Ok 100%Z /\
  create_spend_chart [Examples.food] Examples.spent_97_world
    = Returns Examples.spent_97_chart
        (mkWorld (objects Examples.spent_97_world) [Examples.spent_97_chart]).
Proof. repeat split; vm_compute; reflexivity. Qed.

(** C10.  On the empty list [create_spend_chart] returns: the total is
    zero, but the loop that computes the percentages runs zero times, so
    nothing is divided; the string is the title, the eleven rows with
    label, [|] and one space, and the separator of four spaces and one
    dash with its newline, with no name row after it. *)
Theorem chart_of_no_category (w : world) :
  create_spend_chart [] w
    = Returns empty_chart (mkWorld (objects w) (stdout w ++ [empty_chart])) /\
  withdraws_loop [] [] w = Returns [] w /\
  is_zero (overall_loop []) = true /\
  x_axis_loop (overall_loop []) [] [] 0 = Ok ([], 0%Z) /\
  empty_chart = title ++ body_spec [] ++ separator_spec 0 /\
  names_spec [] 0 = [].
Proof. repeat split. Qed.

Lemma cells_loop_spec y_value x_axis : forall result,
  cells_loop y_value x_axis result
    = result ++ concat (map (cell_spec y_value) x_axis).
Proof.
  unfold cells_loop.
  induction x_axis as [|x_element rest IH]; intros result; cbn [fold_left map concat].
  - now rewrite app_nil_r.
  - rewrite IH. unfold cell_spec, full, empty.
    destruct (y_value <=? x_value x_element)%Z; now rewrite <- app_assoc.
Qed.

Lemma rows_loop_spec x_axis vs :
  Forall (fun v => int (decimal v) = Some v) vs ->
  forall result,
    rows_loop (map decimal vs) x_axis result
      = Ok (result ++ concat (map (row_spec x_axis) vs)).
Proof.
  induction 1 as [|v vs Hv _ IH]; intros result; cbn [rows_loop map concat].
  - now rewrite app_nil_r.
  - rewrite Hv, cells_loop_spec, IH. unfold row_spec.
    now rewrite <- !app_assoc.
Qed.

Lemma y_axis_labels :
  y_axis = map decimal labels /\
  Forall (fun v => int (decimal v) = Some v) labels.
Proof. split; [reflexivity|]. repeat constructor. Qed.

Lemma labels_loop_app x_axis m todo : forall i result,
  labels_loop x_axis m todo i result
    = result ++ labels_loop x_axis m todo i [].
Proof.
  induction todo as [|todo IH]; intros i result; cbn [labels_loop].
  - now rewrite app_nil_r.
  - cbn [app].
    destruct (Z.of_nat i <? m - 1)%Z;
      rewrite IH; symmetry; rewrite IH; now rewrite <- !app_assoc.
Qed.

Lemma separator_line (n : nat) (rest : str) :
  lit "    " ++ rjust [] (Z.of_nat n * 3) "-"%char ++ lit "-" ++ [newline] ++ rest
    = separator_spec n ++ rest.
Proof.
  unfold separator_spec, rjust, len. cbn [length]. rewrite app_nil_r.
  replace (Z.to_nat (Z.of_nat n * 3 - Z.of_nat 0)) with (3 * n)%nat by lia.
  change (lit "    ") with (repeat space 4).
  change (lit "-") with (repeat "-"%char 1).
  now rewrite repeat_app, <- !app_assoc.
Qed.

(** C9.  When every category exists and every percentage is computed, the
    chart that is returned (and printed) is the title, then the eleven
    rows for the labels 100, 90, ..., 0 in this order, each made of the
    label with [|] right-justified to width 4, one cell of three
    characters per category in input order, [" o "] when the percentage
    of the category is at least the label and blanks otherwise, and a
    space before the newline; then the line of four spaces and
    [3 * n + 1] dashes for [n] categories; then the names. *)
Theorem chart_layout (w : world) (categories : list ref)
    (withdraws : list Withdraw) (x_axis : list XAxis) (max_name_length : Z) :
  withdraws_loop categories [] w = Returns withdraws w ->
  x_axis_loop (overall_loop withdraws) withdraws [] 0
    = Ok (x_axis, max_name_length) ->
  let result :=
    title ++ body_spec x_axis ++ separator_spec (length categories)
      ++ names_spec x_axis max_name_length in
  create_spend_chart categories w
    = Returns result (mkWorld (objects w) (stdout w ++ [result])) /\
  Forall2 (bar_of w (overall_loop withdraws)) categories x_axis /\
  labels = [100; 90; 80; 70; 60; 50; 40; 30; 20; 10; 0]%Z.
Proof.
  intros Hw Hx result.
  destruct (withdraws_loop_spec _ _ _ _ _ Hw) as (_ & cats & Hcats & Hws).
  destruct (x_axis_loop_spec _ _ _ _ _ _ Hx) as (bars & Hbars & HF).
  cbn [app] in Hws, Hbars. subst bars.
  assert (Hbar : Forall2 (bar_of w (overall_loop withdraws)) categories x_axis).
  { clear Hx Hw result. revert HF. generalize (overall_loop withdraws).
    subst withdraws. intros overall HF.
    revert x_axis HF. induction Hcats as [|category c rest cats L _ IH];
      intros x_axis HF; cbn [map] in HF.
    - inversion HF. constructor.
    - inversion HF as [|? x_element ? bars [Hn Hp] HF']; subst.
      constructor; [|now apply IH].
      exists c. now split. }
  split; [|split; [exact Hbar|reflexivity]].
  unfold create_spend_chart, bind. rewrite Hw. unfold lift at 1. rewrite Hx.
  cbn [fst snd]. destruct y_axis_labels as [-> Hl].
  rewrite (rows_loop_spec x_axis labels Hl). unfold lift, print, ret.
  rewrite labels_loop_app.
  assert (Hlen : len x_axis = Z.of_nat (length categories)).
  { unfold len. f_equal. symmetry. eapply Forall2_length. exact Hbar. }
  rewrite Hlen, <- !app_assoc, separator_line.
  unfold result, title, body_spec, names_spec.
  now rewrite <- !app_assoc.
Qed.

Lemma chart_layout_witness :
  create_spend_chart [Examples.food; Examples.auto] Examples.even_world
    = Returns Examples.even_chart
        (mkWorld (objects Examples.even_world)
                 (stdout Examples.even_world ++ [Examples.even_chart])).
Proof.
  exact (proj1 (chart_layout Examples.even_world [Examples.food; Examples.auto]
                  [mkWithdraw (lit "Food") 50; mkWithdraw (lit "Auto") 50]
                  [mkXAxis (lit "Food") 50; mkXAxis (lit "Auto") 50] 4
                  eq_refl eq_refl)).
Defined.

End Chart.

(** ** The statement of a category *)

Section Statement.
Import FloatFacts.

Lemma rjust_nil n fill : rjust [] n fill = repeat fill (Z.to_nat n).
Proof.
  unfold rjust, len. cbn [length]. rewrite app_nil_r. do 2 f_equal. lia.
Qed.

Lemma statement_line_spec element :
  statement_line element = line_spec element ++ [newline].
Proof.
  unfold statement_line, line_spec, slice_to. rewrite rjust_nil.
  now rewrite <- !app_assoc.
Qed.

Lemma statement_loop l : forall result,
  fold_left (fun result element => result ++ statement_line element) l result
    = result ++ concat (map (fun element => line_spec element ++ [newline]) l).
Proof.
  induction l as [|element l IH]; intros result; cbn [fold_left map concat].
  - now rewrite app_nil_r.
  - now rewrite IH, statement_line_spec, <- app_assoc.
Qed.

Lemma center_30 (s : str) :
  (len s <= 30)%Z ->
  exists l r : nat,
    center s 30 "*"%char = repeat "*"%char l ++ s ++ repeat "*"%char r /\
    (l + length s + r = 30)%nat /\ (l <= r <= l + 1)%nat.
Proof.
  intros H. unfold center. set (marg := (30 - len s)%Z).
  assert (Hland : Z.land (Z.land marg 30) 1 = 0%Z).
  { rewrite <- Z.land_assoc. change (Z.land 30 1) with 0%Z. apply Z.land_0_r. }
  rewrite Hland, Z.add_0_r.
  pose proof (Z.div_mod marg 2 ltac:(lia)) as Hdm.
  pose proof (Z.mod_pos_bound marg 2 ltac:(lia)) as Hmod.
  unfold len in *.
  destruct (Z.leb_spec marg 0) as [Hle|Hgt].
  - exists 0%nat, 0%nat. cbn [repeat app]. rewrite app_nil_r.
    split; [reflexivity|]. lia.
  - exists (Z.to_nat (marg / 2)), (Z.to_nat (marg - marg / 2)).
    split; [reflexivity|]. lia.
Qed.

Lemma hundredths_nonneg m e : (0 <= Float.hundredths m e)%Z.
Proof.
  unfold Float.hundredths. destruct e as [|p|p].
  - lia.
  - apply Z.mul_nonneg_nonneg; [lia|]. apply Z.pow_nonneg. lia.
  - unfold Float.div_half_even.
    assert (0 <= Z.pos m * 100 / 2 ^ Z.pos p)%Z.
    { apply Z.div_pos; [lia|]. apply Z.pow_pos_nonneg; lia. }
    destruct (_ ?= _)%Z; [destruct (Z.even _)| |]; lia.
Qed.

Lemma digit_char_not_newline d : (0 <= d <= 9)%Z -> digit_char d <> newline.
Proof.
  intros H E. apply (f_equal N_of_ascii) in E. unfold digit_char in E.
  rewrite N_ascii_embedding in E by lia. vm_compute (N_of_ascii newline) in E. lia.
Qed.

(** The text of an amount does not end with a newline. *)
Lemma format_2f_last x :
  exists init c, Float.format_2f x = init ++ [c] /\ c <> newline.
Proof.
  unfold Float.format_2f. destruct (Prim2SF x) as [s|s| |s m e].
  - exists (Float.sign_str s ++ lit "0.0"), "0"%char.
    split; [now rewrite <- app_assoc|discriminate].
  - exists (Float.sign_str s ++ lit "in"), "f"%char.
    split; [now rewrite <- app_assoc|discriminate].
  - exists (lit "na"), "n"%char. split; [reflexivity|discriminate].
  - set (h := Float.hundredths m e).
    exists (Float.sign_str s ++ decimal (h / 100) ++ lit "."
              ++ [digit_char (h mod 100 / 10)]), (digit_char (h mod 10)).
    split; [now rewrite <- !app_assoc|].
    apply digit_char_not_newline.
    pose proof (Z.mod_pos_bound h 10 ltac:(lia)). lia.
Qed.

Lemma digit_value_char (d : Z) :
  (0 <= d <= 9)%Z -> digit_value (digit_char d) = Some d.
Proof.
  intros H. unfold digit_value, digit_char.
  rewrite N_ascii_embedding by lia. rewrite Z2N.id by lia.
  replace ((48 <=? 48 + d)%Z && (48 + d <=? 57)%Z) with true.
  - f_equal. lia.
  - symmetry. apply andb_true_intro. split; apply Z.leb_le; lia.
Qed.

Lemma digit_value_inv (c : ascii) (d : Z) :
  digit_value c = Some d -> (0 <= d <= 9)%Z /\ c = digit_char d.
Proof.
  unfold digit_value, digit_char. intros H.
  destruct (_ && _) eqn:E; [|discriminate]. injection H as <-.
  apply andb_prop in E as [E1 E2]. apply Z.leb_le in E1, E2.
  split; [lia|].
  replace (48 + (Z.of_N (N_of_ascii c) - 48))%Z with (Z.of_N (N_of_ascii c)) by lia.
  now rewrite N2Z.id, ascii_N_embedding.
Qed.

Lemma int_digits_acc (u : Decimal.uint) : forall acc : positive,
  int_digits (Zpos acc) (lit (NilEmpty.string_of_uint u))
    = Some (Zpos (Pos.of_uint_acc u acc)).
Proof.
  unfold lit.
  induction u as [|u IH|u IH|u IH|u IH|u IH|u IH|u IH|u IH|u IH|u IH];
    intros acc; cbn [NilEmpty.string_of_uint list_ascii_of_string int_digits Pos.of_uint_acc];
    [reflexivity|..];
    match goal with
    | |- context [digit_value ?c] =>
        let v := eval vm_compute in (digit_value c) in
        change (digit_value c) with v
    end; cbv iota beta; rewrite <- IH; f_equal; lia.
Qed.

Lemma int_digits_uint (u : Decimal.uint) :
  int_digits 0 (lit (NilEmpty.string_of_uint u)) = Some (Z.of_N (Pos.of_uint u)).
Proof.
  induction u as [|u IH|u IH|u IH|u IH|u IH|u IH|u IH|u IH|u IH|u IH];
    [reflexivity|exact IH|..];
    cbn [Pos.of_uint Z.of_N]; rewrite <- int_digits_acc; reflexivity.
Qed.

Lemma unorm_fixed (u : Decimal.uint) :
  Decimal.unorm u = u ->
  u = Decimal.D0 Decimal.Nil \/
  (u <> Decimal.Nil /\ forall l, u <> Decimal.D0 l).
Proof.
  intros H. destruct u as [|l|l|l|l|l|l|l|l|l|l];
    try (right; split; [discriminate|intros l'; discriminate]).
  left. change (Decimal.unorm l = Decimal.D0 l) in H.
  destruct (Decimal.uint_eq_dec l Decimal.Nil) as [->|Hl]; [reflexivity|].
  pose proof (DecimalFacts.nb_digits_unorm l Hl) as B.
  rewrite H in B. cbn [Decimal.nb_digits] in B. lia.
Qed.

Lemma decimal_int (n : Z) :
  (0 <= n)%Z ->
  int (decimal n) = Some n /\
  (decimal n = lit "0" \/ hd_error (decimal n) <> Some "0"%char).
Proof.
  intros Hn. unfold decimal.
  set (u := N.to_uint (Z.to_N n)).
  assert (Hv : Z.of_N (N.of_uint u) = n).
  { unfold u. rewrite DecimalN.Unsigned.of_to. lia. }
  assert (Hu : Decimal.unorm u = u).
  { rewrite <- DecimalN.Unsigned.to_of. unfold u.
    now rewrite DecimalN.Unsigned.of_to. }
  clearbody u.
  destruct (unorm_fixed u Hu) as [E|[Hnil Hzero]].
  - rewrite E in *. cbn in Hv. subst n. split; [reflexivity|now left].
  - assert (Es : NilZero.string_of_uint u = NilEmpty.string_of_uint u).
    { destruct u; [contradiction|reflexivity..]. }
    rewrite Es. split.
    + pose proof (int_digits_uint u) as Hi. unfold N.of_uint in Hv. rewrite Hv in Hi.
      unfold int. destruct (lit (NilEmpty.string_of_uint u)) eqn:El; [|exact Hi].
      destruct u; try contradiction; discriminate El.
    + right. destruct u as [|l|l|l|l|l|l|l|l|l|l]; try discriminate.
      now destruct (Hzero l).
Qed.

Lemma digits_uint (t : str) : forall acc v,
  int_digits acc t = Some v -> exists u, lit (NilEmpty.string_of_uint u) = t.
Proof.
  induction t as [|c t IH]; intros acc v H.
  - exists Decimal.Nil. reflexivity.
  - cbn [int_digits] in H. destruct (digit_value c) as [d|] eqn:Ed; [|discriminate].
    destruct (digit_value_inv _ _ Ed) as [Hd ->].
    destruct (IH _ _ H) as [u <-].
    assert (C : (d = 0 \/ d = 1 \/ d = 2 \/ d = 3 \/ d = 4 \/ d = 5 \/ d = 6
                 \/ d = 7 \/ d = 8 \/ d = 9)%Z) by lia.
    destruct C as [->|[->|[->|[->|[->|[->|[->|[->|[->| ->]]]]]]]]];
      [exists (Decimal.D0 u)|exists (Decimal.D1 u)|exists (Decimal.D2 u)
      |exists (Decimal.D3 u)|exists (Decimal.D4 u)|exists (Decimal.D5 u)
      |exists (Decimal.D6 u)|exists (Decimal.D7 u)|exists (Decimal.D8 u)
      |exists (Decimal.D9 u)]; reflexivity.
Qed.

Lemma int_decimal (n : Z) (t : str) :
  int t = Some n -> (t = lit "0" \/ hd_error t <> Some "0"%char) ->
  t = decimal n.
Proof.
  intros Hi Hc. unfold int in Hi.
  assert (Ht : t <> []) by (intros ->; discriminate Hi).
  assert (Hi' : int_digits 0 t = Some n) by (destruct t; [contradiction|exact Hi]).
  destruct (digits_uint t 0 n Hi') as [u Eu].
  pose proof (int_digits_uint u) as Hv. rewrite Eu, Hi' in Hv. injection Hv as Hv.
  assert (Hnil : u <> Decimal.Nil) by (intros ->; now apply Ht).
  assert (Hu : Decimal.unorm u = u).
  { destruct Hc as [E|Hz].
    - rewrite E in Eu.
      destruct u as [|l|l|l|l|l|l|l|l|l|l]; try discriminate Eu.
      destruct l; try discriminate Eu. reflexivity.
    - destruct u as [|l|l|l|l|l|l|l|l|l|l]; try reflexivity.
      + contradiction.
      + exfalso. apply Hz. now rewrite <- Eu. }
  unfold decimal. rewrite Hv, N2Z.id.
  change (Pos.of_uint u) with (N.of_uint u).
  rewrite DecimalN.Unsigned.to_of, Hu, <- Eu.
  destruct u; [contradiction|reflexivity..].
Qed.

Lemma two_digits_int (h : Z) :
  (0 <= h)%Z ->
  int [digit_char (h mod 100 / 10); digit_char (h mod 10)] = Some (h mod 100)%Z.
Proof.
  intros Hh.
  pose proof (Z.mod_pos_bound h 10 ltac:(lia)) as B1.
  pose proof (Z.mod_pos_bound h 100 ltac:(lia)) as B2.
  assert (B3 : (0 <= h mod 100 / 10 <= 9)%Z).
  { split; [apply Z.div_pos; lia|].
    enough (h mod 100 / 10 < 10)%Z by lia. apply Z.div_lt_upper_bound; lia. }
  unfold int. cbn [int_digits].
  rewrite (digit_value_char _ B3).
  rewrite (digit_value_char (h mod 10)) by lia. f_equal.
  pose proof (Z.div_mod (h mod 100) 10 ltac:(lia)) as E.
  rewrite Z.mod_mod_divide in E by (exists 10%Z; reflexivity). lia.
Qed.

Lemma two_digits_int_unique (d1 d2 d1' d2' : ascii) (v : Z) :
  int [d1; d2] = Some v -> int [d1'; d2'] = Some v -> [d1; d2] = [d1'; d2'].
Proof.
  unfold int. cbn [int_digits]. intros H H'.
  destruct (digit_value d1) as [a|] eqn:E1; [|discriminate].
  destruct (digit_value d2) as [b|] eqn:E2; [|discriminate].
  destruct (digit_value d1') as [a'|] eqn:E1'; [|discriminate].
  destruct (digit_value d2') as [b'|] eqn:E2'; [|discriminate].
  apply digit_value_inv in E1 as [? ->], E2 as [? ->], E1' as [? ->], E2' as [? ->].
  injection H as H. injection H' as H'.
  assert (a = a') by lia. assert (b = b') by lia. now subst.
Qed.

Lemma digit_chars_value (d : Z) (c : ascii) :
  (0 <= d <= 9)%Z ->
  nth_error digit_chars (Z.to_nat d) = Some c <-> digit_value c = Some d.
Proof.
  intros Hd.
  assert (C : (d = 0 \/ d = 1 \/ d = 2 \/ d = 3 \/ d = 4 \/ d = 5 \/ d = 6
               \/ d = 7 \/ d = 8 \/ d = 9)%Z) by lia.
  split.
  - intros H.
    destruct C as [->|[->|[->|[->|[->|[->|[->|[->|[->| ->]]]]]]]]];
      injection H as <-; reflexivity.
  - intros H. apply digit_value_inv in H as [_ ->].
    destruct C as [->|[->|[->|[->|[->|[->|[->|[->|[->| ->]]]]]]]]]; reflexivity.
Qed.

Lemma digit_text_int (ds : list Z) (t : str) :
  digit_text ds t ->
  forall acc,
    int_digits acc t = Some (fold_left (fun value d => (10 * value + d)%Z) ds acc).
Proof.
  induction 1 as [|d c ds t [Hd Hc] _ IH]; intros acc; [reflexivity|].
  cbn [int_digits fold_left].
  rewrite (proj1 (digit_chars_value d c Hd) Hc). apply IH.
Qed.

Lemma int_digit_text (t : str) : forall acc v,
  int_digits acc t = Some v ->
  exists ds,
    digit_text ds t /\ fold_left (fun value d => (10 * value + d)%Z) ds acc = v.
Proof.
  induction t as [|c t IH]; intros acc v H.
  - injection H as <-. exists []. split; [constructor|reflexivity].
  - cbn [int_digits] in H. destruct (digit_value c) as [d|] eqn:Ed; [|discriminate].
    destruct (IH _ _ H) as (ds & Hds & Hv).
    pose proof (digit_value_inv _ _ Ed) as [Hd _].
    exists (d :: ds). split; [|exact Hv].
    constructor; [|exact Hds]. split; [exact Hd|].
    now apply digit_chars_value.
Qed.

(** The digits write [n] exactly when [int] reads [n]. *)
Lemma digits_of_int (n : Z) (t : str) : digits_of n t <-> int t = Some n.
Proof.
  unfold digits_of, digits_value, int. split.
  - intros (Ht & ds & Hds & <-). destruct t; [contradiction|].
    now apply digit_text_int.
  - intros H. destruct t as [|c t]; [discriminate|]. split; [discriminate|].
    now apply int_digit_text.
Qed.

Lemma decimal_numeral (n : Z) : (0 <= n)%Z -> numeral n (decimal n).
Proof.
  intros Hn. destruct (decimal_int n Hn) as [Hi Hc].
  split; [now apply digits_of_int|exact Hc].
Qed.

(** A numeral is the one that [decimal] writes. *)
Lemma numeral_decimal (n : Z) (t : str) : numeral n t -> t = decimal n.
Proof.
  intros [Hi Hc]. apply digits_of_int in Hi. now apply int_decimal.
Qed.

Lemma two_digits (h : Z) :
  (0 <= h)%Z ->
  digits_of (h mod 100) [digit_char (h mod 100 / 10); digit_char (h mod 10)].
Proof. intros Hh. apply digits_of_int. now apply two_digits_int. Qed.

Lemma two_digits_unique (d1 d2 d1' d2' : ascii) (v : Z) :
  digits_of v [d1; d2] -> digits_of v [d1'; d2'] -> [d1; d2] = [d1'; d2'].
Proof.
  intros H H'. apply digits_of_int in H, H'.
  exact (two_digits_int_unique _ _ _ _ _ H H').
Qed.

Lemma div_half_even_nearest (n d : Z) :
  (0 <= n)%Z -> (0 < d)%Z -> nearest_even n d (Float.div_half_even n d).
Proof.
  intros Hn Hd. unfold nearest_even, Float.div_half_even.
  pose proof (Z.div_mod n d ltac:(lia)) as E.
  pose proof (Z.mod_pos_bound n d Hd) as B.
  set (q := (n / d)%Z) in *. set (r := (n mod d)%Z) in *.
  destruct (Z.compare_spec (2 * r) d) as [C|C|C].
  - destruct (Z.even q) eqn:Ev.
    + split; [|intros _; exact Ev]. nia.
    + split; [nia|]. intros _.
      rewrite Z.add_1_r, Z.even_succ, <- Z.negb_even, Ev. reflexivity.
  - split; [nia|]. intros H. exfalso. nia.
  - split; [nia|]. intros H. exfalso. nia.
Qed.

Lemma nearest_even_exact (n : Z) : nearest_even n 1 n.
Proof. unfold nearest_even. split; lia. Qed.

Lemma nearest_even_unique (num den h h' : Z) :
  (0 < den)%Z -> nearest_even num den h -> nearest_even num den h' -> h = h'.
Proof.
  intros Hd [B E] [B' E'].
  assert (R : (-1 <= h - h' <= 1)%Z) by nia.
  assert (C : (h = h' \/ h = h' + 1 \/ h' = h + 1)%Z) by lia.
  destruct C as [C|[C|C]]; [exact C|exfalso..].
  - assert (Ev : Z.even h = true) by (apply E; nia).
    assert (Ev' : Z.even h' = true) by (apply E'; nia).
    rewrite C, Z.add_1_r, Z.even_succ, <- Z.negb_even, Ev' in Ev. discriminate.
  - assert (Ev : Z.even h = true) by (apply E; nia).
    assert (Ev' : Z.even h' = true) by (apply E'; nia).
    rewrite C, Z.add_1_r, Z.even_succ, <- Z.negb_even, Ev in Ev'. discriminate.
Qed.

(** The format of the program writes the text of the amount. *)
Lemma format_2f_text (x : float) : amount_text x (Float.format_2f x).
Proof.
  unfold amount_text, Float.format_2f.
  destruct (Prim2SF x) as [s|s| |s m e]; try reflexivity.
  - exists (lit "0"), "0"%char, "0"%char, 0%Z.
    split; [split; [cbn; lia|cbn; lia]|].
    split; [split; [now apply digits_of_int|now left]|].
    split; [now apply digits_of_int|]. now destruct s.
  - set (h := Float.hundredths m e).
    pose proof (hundredths_nonneg m e) as Hh. fold h in Hh.
    exists (decimal (h / 100)), (digit_char (h mod 100 / 10)),
           (digit_char (h mod 10)), h.
    split; [|split; [|split]].
    + unfold h, Float.hundredths. destruct e as [|p|p].
      * change (Z.max 0 (- 0)) with 0%Z. change (Z.max 0 0) with 0%Z.
        rewrite Z.pow_0_r. apply nearest_even_exact.
      * replace (Z.max 0 (Z.pos p)) with (Z.pos p) by lia.
        replace (Z.max 0 (- Z.pos p)) with 0%Z by lia.
        rewrite Z.pow_0_r. apply nearest_even_exact.
      * replace (Z.max 0 (Z.neg p)) with 0%Z by lia.
        replace (- Z.neg p)%Z with (Z.pos p) by lia.
        replace (Z.max 0 (Z.pos p)) with (Z.pos p) by lia.
        rewrite Z.pow_0_r, Z.mul_1_r.
        apply div_half_even_nearest; [lia|]. apply Z.pow_pos_nonneg; lia.
    + apply decimal_numeral. apply Z.div_pos; lia.
    + now apply two_digits.
    + reflexivity.
Qed.

Lemma two_decimal_text_unique (s : bool) (num den : Z) (a b : str) :
  (0 < den)%Z ->
  two_decimal_text s num den a -> two_decimal_text s num den b -> a = b.
Proof.
  intros Hd (whole & d1 & d2 & h & Hn & Hw & Hd12 & ->)
            (whole' & d1' & d2' & h' & Hn' & Hw' & Hd12' & ->).
  assert (h' = h) by (now apply (nearest_even_unique num den)). subst h'.
  rewrite (numeral_decimal _ _ Hw), (numeral_decimal _ _ Hw').
  now rewrite (two_digits_unique _ _ _ _ _ Hd12 Hd12').
Qed.

(** The text of an amount is the one the format of the program writes. *)
Lemma amount_text_format (x : float) (a : str) :
  amount_text x a -> a = Float.format_2f x.
Proof.
  intros H. pose proof (format_2f_text x) as F. unfold amount_text in *.
  destruct (Prim2SF x) as [s|s| |s m e].
  - now apply (two_decimal_text_unique s 0 1).
  - now rewrite H, F.
  - now rewrite H, F.
  - apply (two_decimal_text_unique s (Zpos m * 100 * 2 ^ Z.max 0 e)
             (2 ^ Z.max 0 (- e))); [apply Z.pow_pos_nonneg; lia|exact H|exact F].
Qed.

Lemma texts_format (l : list LedgerElement) (texts : list str) :
  Forall2 (fun element a => amount_text (amount element) a) l texts ->
  concat (zip_with (fun element a => entry_line element a ++ [newline]) l texts)
    = concat (map (fun element => line_spec element ++ [newline]) l).
Proof.
  induction 1 as [|element a l texts Ha _ IH]; [reflexivity|].
  cbn [map zip_with concat]. rewrite IH.
  now rewrite (amount_text_format _ _ Ha).
Qed.

Lemma texts_exist (l : list LedgerElement) :
  Forall2 (fun element a => amount_text (amount element) a) l
          (map (fun element => Float.format_2f (amount element)) l).
Proof.
  induction l as [|element l IH]; cbn [map]; constructor.
  - apply format_2f_text.
  - exact IH.
Qed.

Lemma entry_line_length element a :
  (0 <= 30 - len a - len (firstn 23 (description element)))%Z ->
  length (entry_line element a) = 30%nat.
Proof.
  unfold entry_line, len. intros H.
  rewrite !length_app, repeat_length. lia.
Qed.

Lemma no_two_decimals (line pad d : str) (s : bool) (num den : Z) (a : str)
    (c1 c2 c3 : ascii) :
  two_decimal_text s num den a ->
  c1 <> "."%char ->
  line ++ [c1; c2; c3] <> d ++ pad ++ a.
Proof.
  intros (whole & d1 & d2 & h & _ & _ & _ & ->) Hc E.
  change (line ++ [c1; c2; c3]) with (line ++ [c1] ++ [c2] ++ [c3]) in E.
  change (lit "." ++ [d1; d2]) with (["."%char] ++ [d1] ++ [d2]) in E.
  rewrite !app_assoc in E.
  apply app_inj_tail in E as [E _]. apply app_inj_tail in E as [E _].
  apply app_inj_tail in E as [_ E]. now apply Hc.
Qed.

(** C8.  The statement of a category is the name centred in width 30
    with [*], a newline, then for each ledger entry in order the
    description cut to 23 characters, [30 - len(amount) - len(description)]
    spaces, the text of the amount and a newline, so that the line is 30
    characters long whenever that count is not negative, and last
    ["Total: "] with the text of the balance and no newline after it.  The
    text of a finite amount is the amount rounded to the nearest hundredth,
    the even one of two equally near, written as a minus sign when the sign
    bit is set, the decimal numeral of the whole part, a point and two
    digits; the text of an infinite or NaN amount is [inf], [-inf] or
    [nan].  Such texts exist for every ledger, and the statement is the
    one made of them. *)
Theorem statement_layout (w : world) (self : ref) (c : Category) :
  objects w !! self = Some c ->
  (exists texts total,
     Forall2 (fun element a => amount_text (amount element) a) (ledger c) texts /\
     amount_text (sum_amounts (ledger c)) total) /\
  (forall texts total,
     Forall2 (fun element a => amount_text (amount element) a) (ledger c) texts ->
     amount_text (sum_amounts (ledger c)) total ->
     Category_str self w = Returns (statement_of c texts total) w /\
     exists init last_char,
       statement_of c texts total = init ++ [last_char] /\ last_char <> newline) /\
  ((len (name c) <= 30)%Z ->
   exists l r : nat,
     center (name c) 30 "*"%char
       = repeat "*"%char l ++ name c ++ repeat "*"%char r /\
     (l + length (name c) + r = 30)%nat /\ (l <= r <= l + 1)%nat) /\
  (forall element a,
     let d := firstn 23 (description element) in
     (length d <= 23)%nat /\
     (length (description element) <= 23 -> d = description element)%nat /\
     ((0 <= 30 - len a - len d)%Z -> length (entry_line element a) = 30%nat)).
Proof.
  intros H. split; [|split; [|split]].
  - exists (map (fun element => Float.format_2f (amount element)) (ledger c)),
           (Float.format_2f (sum_amounts (ledger c))).
    split; [apply texts_exist|apply format_2f_text].
  - intros texts total Ht Htotal.
    apply amount_text_format in Htotal as ->. split.
    + unfold Category_str, bind, deref. rewrite H.
      rewrite (get_balance_spec _ _ _ H). unfold ret, statement_of.
      now rewrite statement_loop, (texts_format _ _ Ht), <- !app_assoc.
    + destruct (format_2f_last (sum_amounts (ledger c))) as (init & ch & E & Hch).
      unfold statement_of. rewrite E. eexists _, ch. split; [|exact Hch].
      rewrite !app_assoc. reflexivity.
  - apply center_30.
  - intros element a d. split; [apply firstn_le_length|].
    split; [apply firstn_all2|apply entry_line_length].
Qed.

(** The text of [-15.0]. *)
Lemma minus_fifteen_text : amount_text (-15) (lit "-15.00").
Proof.
  exists (lit "15"), "0"%char, "0"%char, 1500%Z.
  split; [split; [vm_compute; discriminate|vm_compute; discriminate]|].
  split; [split; [|right; discriminate]|split; [|reflexivity]].
  - split; [discriminate|]. exists [1; 5]%Z. split; [|reflexivity].
    repeat constructor; lia.
  - split; [discriminate|]. exists [0; 0]%Z. split; [|reflexivity].
    repeat constructor; lia.
Qed.

Lemma statement_layout_witness :
  Category_str Examples.food Examples.business_world
    = Returns
        (lit "***********Business***********" ++ [newline]
           ++ lit "Transfer to Rainy Days  -15.00" ++ [newline]
           ++ lit "Total: -15.00")
        Examples.business_world.
Proof.
  refine (proj1 (proj1 (proj2 (statement_layout Examples.business_world
                                 Examples.food Examples.business eq_refl))
                   [lit "-15.00"] (lit "-15.00") _ _)).
  - constructor; [exact minus_fifteen_text|constructor].
  - exact minus_fifteen_text.
Defined.

(** C8, as first stated.  A NaN can be deposited; its line in the
    statement ends in [nan] and the total is [nan], neither of which is a
    text with two decimals after any padding. *)
Theorem statement_of_nan_amount :
  Category_str Examples.food MoreExamples.nan_world
    = Returns
        (lit "*************Food*************" ++ [newline]
           ++ lit "initial                 100.00" ++ [newline]
           ++ lit "broken                     nan" ++ [newline]
           ++ lit "Total: nan")
        MoreExamples.nan_world /\
  forall s num den a pad,
    two_decimal_text s num den a ->
    lit "broken                     nan" <> lit "broken" ++ pad ++ a /\
    lit "Total: nan" <> lit "Total: " ++ a.
Proof.
  split; [reflexivity|]. intros s num den a pad Ha. split.
  - apply (no_two_decimals (lit "broken                     ") pad (lit "broken")
             s num den a "n"%char "a"%char "n"%char Ha). discriminate.
  - apply (no_two_decimals (lit "Total: ") [] (lit "Total: ")
             s num den a "n"%char "a"%char "n"%char Ha). discriminate.
Qed.

End Statement.

(** ** Signs of binary64 values *)

Module B64SignFacts.
Local Open Scope Z_scope.
Import B64Facts.

Lemma SFadd_sign x y :
  B64.sign_of x = Some false -> B64.sign_of y = Some false ->
  B64.sign_of (SFadd prec emax x y) = Some false.
Proof.
  destruct x as [sx|sx| |sx mx ex], y as [sy|sy| |sy my ey]; simpl;
    try discriminate; intros [= ->] [= ->]; try reflexivity.
  apply binary_normalize_sign. simpl. lia.
Qed.

Lemma SFmul_unsigned x y :
  B64Sign.unsigned x = true -> B64Sign.unsigned y = true ->
  B64Sign.unsigned (SFmul prec emax x y) = true.
Proof.
  unfold B64Sign.unsigned.
  destruct x as [sx|sx| |sx mx ex], y as [sy|sy| |sy my ey]; simpl;
    try reflexivity; try (destruct sx; try discriminate; destruct sy; try discriminate; reflexivity).
  destruct sx; try discriminate; destruct sy; try discriminate. intros _ _.
  now rewrite binary_round_aux_sign by lia.
Qed.

Lemma SFdiv_unsigned x y :
  B64Sign.unsigned x = true -> B64Sign.unsigned y = true ->
  B64Sign.unsigned (SFdiv prec emax x y) = true.
Proof.
  unfold B64Sign.unsigned.
  destruct x as [sx|sx| |sx mx ex], y as [sy|sy| |sy my ey]; simpl;
    try reflexivity; try (destruct sx; try discriminate; destruct sy; try discriminate; reflexivity).
  destruct sx; try discriminate; destruct sy; try discriminate. intros _ _.
  unfold SFdiv_core_binary.
  set (m' := match _ - _ - _ with Z0 => Zpos mx | Zpos _ => _ | Zneg _ => Z0 end).
  assert (Hm' : 0 <= m').
  { unfold m'. destruct (_ - _ - _); try lia. apply Z.shiftl_nonneg. lia. }
  pose proof (Z.div_pos m' (Zpos my) Hm' ltac:(lia)) as Hq.
  unfold Z.div in Hq. destruct (Z.div_eucl m' (Zpos my)) as [q r]. cbn [fst] in Hq.
  now rewrite binary_round_aux_sign by exact Hq.
Qed.


(** *** Rounding a positive number never gives zero *)

Lemma shr_1_m mrs : 0 <= shr_m mrs -> shr_m (shr_1 mrs) = shr_m mrs / 2.
Proof.
  intros H. rewrite <- Z.div2_div.
  destruct mrs as [m r s]. destruct m as [|[p|p|]|p]; try reflexivity. simpl in H. lia.
Qed.

Lemma shr_m_shift mrs e n :
  0 <= shr_m mrs -> 0 <= n ->
  shr_m (fst (shr mrs e n)) = shr_m mrs / 2 ^ n.
Proof.
  intros Hm Hn. destruct n as [|p|p]; try lia.
  - simpl. now rewrite Z.div_1_r.
  - unfold shr. cbn [fst]. rewrite iter_pos_nat, <- (positive_nat_Z p).
    induction (Pos.to_nat p) as [|k IH].
    + simpl. now rewrite Z.div_1_r.
    + rewrite Nat.iter_succ, shr_1_m.
      * rewrite IH, Nat2Z.inj_succ, Z.pow_succ_r by lia.
        rewrite Z.div_div by (try apply Z.pow_pos_nonneg; try apply Z.pow_nonzero; lia).
        f_equal. lia.
      * rewrite IH. apply Z.div_pos; [exact Hm|]. apply Z.pow_pos_nonneg; lia.
Qed.

Lemma shr_fexp_positive m e l :
  0 < m -> -1074 <= e ->
  0 < shr_m (fst (shr_fexp prec emax m e l)) /\
  -1074 <= snd (shr_fexp prec emax m e l).
Proof.
  intros Hm He. destruct m as [|p|p]; try lia.
  unfold shr_fexp. cbn [Zdigits2].
  pose proof (digits2_bounds p) as [Hlo _].
  set (D := Zpos (digits2_pos p)) in *.
  assert (Hn : fexp prec emax (D + e) - e <= 0 \/
               (0 < fexp prec emax (D + e) - e /\ fexp prec emax (D + e) - e = D - 53)).
  { unfold fexp, SpecFloat.emin, prec, emax. lia. }
  destruct Hn as [Hn|[Hn Hd]].
  - unfold shr. destruct (fexp prec emax (D + e) - e) as [|q|q]; try lia;
      cbn [fst snd]; rewrite shr_record_of_loc_m; lia.
  - split.
    + rewrite shr_m_shift; rewrite ?shr_record_of_loc_m; try lia.
      apply Z.div_str_pos. split; [apply Z.pow_pos_nonneg; lia|].
      rewrite Hd. eapply Z.le_trans; [|exact Hlo].
      apply Z.pow_le_mono_r; lia.
    + unfold shr. destruct (fexp prec emax (D + e) - e) as [|q|q]; try lia.
      cbn [snd]. lia.
Qed.

Lemma round_nearest_even_ge m l : m <= round_nearest_even m l.
Proof. destruct l as [|[]]; simpl; try lia. destruct (Z.even m); lia. Qed.

Lemma binary_round_aux_nonzero s m e l :
  0 < m -> -1074 <= e ->
  B64.is_zero (binary_round_aux prec emax s m e l) = false.
Proof.
  intros Hm He. unfold binary_round_aux.
  pose proof (shr_fexp_positive m e l Hm He) as [H1 H1'].
  destruct (shr_fexp prec emax m e l) as [mrs' e']. cbn [fst snd] in H1, H1'.
  pose proof (round_nearest_even_ge (shr_m mrs') (loc_of_shr_record mrs')) as Hr.
  pose proof (shr_fexp_positive (round_nearest_even (shr_m mrs') (loc_of_shr_record mrs'))
                e' loc_Exact ltac:(lia) H1') as [H2 _].
  destruct (shr_fexp prec emax _ e' loc_Exact) as [mrs'' e'']. cbn [fst] in H2.
  destruct (shr_m mrs'') as [|q|q]; try lia.
  now destruct (e'' <=? emax - prec).
Qed.

Lemma binary_normalize_nonzero z e :
  0 < z -> -1074 <= e ->
  B64.is_zero (binary_normalize prec emax z e false) = false.
Proof.
  intros Hz He. destruct z as [|p|p]; try lia.
  unfold binary_normalize, binary_round, shl_align.
  destruct (fexp prec emax (Zpos (digits2_pos p) + e) - e) eqn:E;
    apply binary_round_aux_nonzero; try lia.
  unfold fexp, SpecFloat.emin, prec, emax. lia.
Qed.

(** Adding a positive value to a value that is not negative gives a
    positive value. *)
Lemma SFadd_nonzero x y :
  valid_binary x = true -> valid_binary y = true ->
  B64.sign_of x = Some false -> B64.sign_of y = Some false ->
  B64.is_zero x = false ->
  B64.is_zero (SFadd prec emax x y) = false /\
  B64.is_zero (SFadd prec emax y x) = false.
Proof.
  destruct x as [sx|sx| |sx mx ex], y as [sy|sy| |sy my ey]; simpl;
    try discriminate; intros Vx Vy [= ->] [= ->] _; try (split; reflexivity).
  pose proof (bounded_range _ _ Vx) as (Hx & _).
  pose proof (bounded_range _ _ Vy) as (Hy & _).
  split; apply binary_normalize_nonzero; simpl; lia.
Qed.

End B64SignFacts.

(** ** Signs of sums, products and quotients of floats *)

Module SignFacts.
Local Open Scope float_scope.
Import FloatFacts.

Lemma is_zero_spec x : is_zero x = B64.is_zero (Prim2SF x).
Proof.
  unfold is_zero. rewrite FloatAxioms.eqb_spec.
  change (Prim2SF zero) with (S754_zero false). unfold SFeqb.
  destruct (Prim2SF x) as [s|s| |s m e]; simpl; try reflexivity; now destruct s.
Qed.

Lemma plus_signed_zero : plus_signed 0.
Proof. reflexivity. Qed.

Lemma add_plus_signed x y : plus_signed x -> plus_signed y -> plus_signed (x + y).
Proof.
  unfold plus_signed. intros Hx Hy. rewrite add_spec.
  now apply B64SignFacts.SFadd_sign.
Qed.

Lemma add_nonzero x y :
  plus_signed x -> plus_signed y -> is_zero x = false ->
  is_zero (x + y) = false /\ is_zero (y + x) = false.
Proof.
  unfold plus_signed. rewrite !is_zero_spec, !add_spec. intros Hx Hy Hz.
  apply B64SignFacts.SFadd_nonzero; auto using Prim2SF_valid.
Qed.

Lemma add_zero x y :
  plus_signed x -> plus_signed y -> is_zero x = true -> is_zero y = true ->
  is_zero (x + y) = true.
Proof.
  unfold plus_signed. rewrite !is_zero_spec, !add_spec.
  destruct (Prim2SF x) as [[]| | |], (Prim2SF y) as [[]| | |]; try discriminate.
  reflexivity.
Qed.

(** A negative amount counts for its absolute value, which is positive. *)
Lemma spent_amount a :
  (a <? 0) = true -> plus_signed (a * (-1)) /\ is_zero (a * (-1)) = false.
Proof.
  intros H. unfold plus_signed. rewrite is_zero_spec, mul_minus_one, opp_spec.
  rewrite FloatAxioms.ltb_spec in H. change (Prim2SF 0) with (S754_zero false) in H.
  unfold SFltb in H.
  destruct (Prim2SF a) as [s|s| |s m e]; try discriminate;
    destruct s; try discriminate; now split.
Qed.

Lemma withdraw_sum_step l element :
  withdraw_sum (l ++ [element])
    = if amount element <? 0 then withdraw_sum l + amount element * (-1)
      else withdraw_sum l.
Proof. unfold withdraw_sum. now rewrite fold_left_app. Qed.

Lemma withdraw_sum_sign l :
  plus_signed (withdraw_sum l) /\
  (is_zero (withdraw_sum l) = true <->
   forall element, element ∈ l -> (amount element <? 0) = false).
Proof.
  induction l as [|element l [IHs IHz]] using rev_ind.
  - split; [reflexivity|]. split; [intros _ e He; inversion He|intros _; reflexivity].
  - rewrite withdraw_sum_step. destruct (amount element <? 0) eqn:E.
    + destruct (spent_amount _ E) as [Hp Hn]. split.
      * now apply add_plus_signed.
      * destruct (add_nonzero _ (withdraw_sum l) Hp IHs Hn) as [_ Hnz].
        rewrite Hnz. split; [discriminate|].
        intros H. rewrite H in E; [discriminate|].
        apply elem_of_app. right. now apply list_elem_of_singleton.
    + split; [exact IHs|]. rewrite IHz. split.
      * intros H e He. apply elem_of_app in He as [He|He]; [now apply H|].
        apply list_elem_of_singleton in He. now subst.
      * intros H e He. apply H. apply elem_of_app. now left.
Qed.

Lemma overall_loop_step withdraws withdraw :
  overall_loop (withdraws ++ [withdraw])
    = overall_loop withdraws + w_amount withdraw.
Proof. unfold overall_loop. now rewrite fold_left_app. Qed.

Lemma overall_loop_sign withdraws :
  Forall (fun withdraw => plus_signed (w_amount withdraw)) withdraws ->
  plus_signed (overall_loop withdraws) /\
  (is_zero (overall_loop withdraws) = true <->
   Forall (fun withdraw => is_zero (w_amount withdraw) = true) withdraws).
Proof.
  induction withdraws as [|withdraw withdraws IH] using rev_ind; intros HF.
  - split; [reflexivity|]. split; [intros _; constructor|intros _; reflexivity].
  - apply Forall_app in HF as [HF Hw]. apply Forall_inv in Hw.
    destruct (IH HF) as [IHs IHz]. rewrite overall_loop_step. split.
    + now apply add_plus_signed.
    + rewrite Forall_app, Forall_singleton, <- IHz.
      destruct (is_zero (w_amount withdraw)) eqn:Zw.
      * destruct (is_zero (overall_loop withdraws)) eqn:Zo.
        -- rewrite add_zero by assumption. tauto.
        -- destruct (add_nonzero _ (w_amount withdraw) IHs Hw Zo) as [-> _].
           split; [discriminate|]. intros [? _]. discriminate.
      * destruct (add_nonzero _ (overall_loop withdraws) Hw IHs Zw) as [_ ->].
        split; [discriminate|]. intros [_ ?]. discriminate.
Qed.

End SignFacts.

(** ** The history of the ledgers *)

Section History.
Local Open Scope float_scope.

Lemma history_kept_refl w : history_kept w w.
Proof.
  split; [reflexivity|]. intros r. destruct (objects w !! r) as [c|] eqn:E; [|reflexivity].
  exists []. rewrite app_nil_r. now destruct c.
Qed.

Lemma history_kept_trans w1 w2 w3 :
  history_kept w1 w2 -> history_kept w2 w3 -> history_kept w1 w3.
Proof.
  intros [S1 H1] [S2 H2]. split; [congruence|]. intros r.
  specialize (H1 r). specialize (H2 r).
  destruct (objects w1 !! r) as [c|].
  - destruct H1 as [a1 H1]. rewrite H1 in H2. destruct H2 as [a2 H2].
    exists (a1 ++ a2). cbn [name ledger] in H2. now rewrite app_assoc.
  - now rewrite H1 in H2.
Qed.

Lemma history_kept_appended w self c element :
  objects w !! self = Some c -> history_kept w (appended w self c element).
Proof.
  intros H. split; [reflexivity|]. intros r.
  destruct (decide (self = r)) as [<-|Hne].
  - rewrite H. exists [element]. apply appended_lookup.
  - rewrite (appended_lookup_ne _ _ _ _ _ Hne).
    destruct (objects w !! r) as [c'|]; [|reflexivity].
    exists []. rewrite app_nil_r. now destruct c'.
Qed.

(** Each operation returns, or stops on a missing object; it never raises. *)
Lemma run_op_outcome o w :
  (exists w', run_op o w = Returns tt w' /\ history_kept w w' /\
              forall r, r ∉ op_refs o -> objects w' !! r = objects w !! r) \/
  (run_op o w = NoSuchObject /\ exists r, r ∈ op_refs o /\ objects w !! r = None).
Proof.
  destruct o as [self a d|self a d|self a dst]; cbn [run_op op_refs].
  - destruct (objects w !! self) as [c|] eqn:L.
    + left. rewrite (deposit_spec _ _ _ _ _ L). eexists. split; [reflexivity|].
      split; [now apply history_kept_appended|].
      intros r Hr. apply appended_lookup_ne. set_solver.
    + right. unfold deposit, ledger_append. rewrite L. split; [reflexivity|].
      exists self. split; [set_solver|exact L].
  - unfold bind. destruct (objects w !! self) as [c|] eqn:L.
    + left. rewrite (withdraw_spec _ _ _ _ _ L).
      destruct (a <=? _); eexists; (split; [reflexivity|]).
      * split; [now apply history_kept_appended|].
        intros r Hr. apply appended_lookup_ne. set_solver.
      * split; [apply history_kept_refl|reflexivity].
    + right. unfold withdraw, bind, check_funds, get_balance, bind, deref.
      rewrite L. split; [reflexivity|]. exists self. split; [set_solver|exact L].
  - unfold bind. destruct (objects w !! self) as [c|] eqn:L.
    + destruct (objects w !! dst) as [c'|] eqn:L'.
      * left. rewrite (transfer_spec _ _ _ _ _ _ L L').
        destruct (a <=? _).
        -- cbv zeta.
           pose proof (history_kept_appended w self c (transfer_to_entry a c') L) as K1.
           set (w1 := appended w self c (transfer_to_entry a c')) in *.
           destruct (objects w1 !! dst) as [c1|] eqn:L1.
           ++ eexists. split; [reflexivity|]. split.
              ** eapply history_kept_trans; [exact K1|].
                 now apply history_kept_appended.
              ** intros r Hr. rewrite appended_lookup_ne by set_solver.
                 unfold w1. apply appended_lookup_ne. set_solver.
           ++ destruct K1 as [_ K1]. specialize (K1 dst). rewrite L' in K1.
              destruct K1 as [? K1]. congruence.
        -- eexists. split; [reflexivity|]. split; [apply history_kept_refl|reflexivity].
      * unfold transfer, bind. rewrite (check_funds_spec _ _ _ _ L).
        destruct (a <=? _).
        -- right. unfold deref. rewrite L'. split; [reflexivity|].
           exists dst. split; [set_solver|exact L'].
        -- left. eexists. split; [reflexivity|]. split; [apply history_kept_refl|reflexivity].
    + right. unfold transfer, bind, check_funds, get_balance, bind, deref.
      rewrite L. split; [reflexivity|]. exists self. split; [set_solver|exact L].
Qed.

(** X1.  Whatever deposits, withdrawals and transfers are run, they remove
    no object and create none, change no name, print nothing, and leave
    every ledger as it was with the new entries after the old ones: no
    entry is ever changed, reordered or removed. *)
Theorem ledgers_only_grow (ops : list op) (w w' : world) :
  run_ops ops w = Returns tt w' -> history_kept w w'.
Proof.
  revert w. induction ops as [|o ops IH]; intros w H.
  - injection H as <-. apply history_kept_refl.
  - cbn [run_ops] in H. unfold bind in H.
    destruct (run_op_outcome o w) as [(w1 & E & K & _)|(E & _)]; rewrite E in H;
      [|discriminate].
    eapply history_kept_trans; [exact K|]. now apply IH.
Qed.

Lemma ledgers_only_grow_witness :
  history_kept Examples.new_food_world Examples.food_world.
Proof.
  exact (ledgers_only_grow Examples.food_ops Examples.new_food_world
           Examples.food_world eq_refl).
Defined.

(** X2.  A deposit, a withdrawal or a transfer leaves every category other
    than the one, or the two, it is called on exactly as it was. *)
Theorem other_categories_untouched (o : op) (w w' : world) (r : ref) :
  run_op o w = Returns tt w' ->
  r ∉ op_refs o ->
  objects w' !! r = objects w !! r.
Proof.
  intros H Hr.
  destruct (run_op_outcome o w) as [(w1 & E & _ & F)|(E & _)]; rewrite E in H;
    [|discriminate].
  injection H as <-. now apply F.
Qed.

Lemma other_categories_untouched_witness :
  objects (appended Examples.two_world Examples.food Examples.food_900
             (mkLedgerElement 50 (lit "more")))
    !! Examples.auto
  = objects Examples.two_world !! Examples.auto.
Proof.
  refine (other_categories_untouched
            (OpDeposit Examples.food 50 (lit "more")) Examples.two_world _
            Examples.auto eq_refl _).
  intros H. apply list_elem_of_singleton in H. discriminate H.
Defined.

End History.

(** ** More on the methods of a category *)

Section Aliasing.
Local Open Scope float_scope.
Import FloatFacts.

(** X3.  A transfer of a category to itself with enough funds returns
    true and appends both entries to the one ledger, the withdrawal
    ["Transfer to " + name] first and the deposit ["Transfer from " + name]
    after it, so that the balance is [balance - amount + amount]; without
    funds it returns false and changes nothing. *)
Theorem transfer_to_same_category (w : world) (self : ref) (c : Category)
    (amount : float) :
  objects w !! self = Some c ->
  let balance := sum_amounts (ledger c) in
  let c' :=
    mkCategory (name c)
      (ledger c ++ [mkLedgerElement (- amount) (lit "Transfer to " ++ name c);
                    mkLedgerElement amount (lit "Transfer from " ++ name c)]) in
  if amount <=? balance then
    transfer self amount self w
      = Returns true (mkWorld (<[self := c']> (objects w)) (stdout w)) /\
    sum_amounts (ledger c') = balance - amount + amount
  else transfer self amount self w = Returns false w.
Proof.
  intros H balance c'. rewrite (transfer_spec _ _ _ _ _ amount H H). fold balance.
  destruct (amount <=? balance); [|reflexivity]. cbv zeta.
  rewrite appended_lookup. split.
  - unfold appended. cbn [objects stdout name ledger].
    rewrite insert_insert_eq. unfold c', transfer_to_entry, transfer_from_entry.
    cbn [name]. now rewrite <- app_assoc.
  - unfold c'. cbn [ledger].
    change (ledger c ++ [?a; ?b]) with (ledger c ++ ([a] ++ [b])).
    rewrite app_assoc, !sum_amounts_snoc. cbn. now rewrite add_opp.
Qed.

(** X4.  [Category(name)] always returns a reference that no object had
    before; the new object has the given name and an empty ledger, its
    balance is [0.0] and its funds cover exactly the amounts that are at
    most zero; every other object and the output are as they were. *)
Theorem new_category_is_fresh (w : world) (name : str) :
  exists r w',
    Category_init name w = Returns r w' /\
    objects w !! r = None /\
    objects w' !! r = Some (mkCategory name []) /\
    (forall r', r' <> r -> objects w' !! r' = objects w !! r') /\
    stdout w' = stdout w /\
    get_balance r w' = Returns 0 w' /\
    forall amount, check_funds r amount w' = Returns (amount <=? 0) w'.
Proof.
  eexists _, _. split; [reflexivity|]. cbn [objects stdout].
  assert (F : objects w !! fresh (dom (objects w)) = None).
  { apply not_elem_of_dom. apply is_fresh. }
  assert (L : objects (mkWorld (<[fresh (dom (objects w)) := mkCategory name []]> (objects w)) (stdout w))
              !! fresh (dom (objects w)) = Some (mkCategory name [])).
  { cbn [objects]. apply lookup_insert_eq. }
  split; [exact F|]. split; [apply lookup_insert_eq|].
  split; [intros r' Hr'; now apply lookup_insert_ne|]. split; [reflexivity|].
  split.
  - now rewrite (get_balance_spec _ _ _ L).
  - intros amount. now rewrite (check_funds_spec _ _ _ _ L).
Qed.

(** X5.  [check_funds(amount)] changes nothing, and what it returns is
    what [withdraw(amount, ...)] and [transfer(amount, ...)] to any existing
    category return when they are called in the same state. *)
Theorem check_funds_decides (w : world) (self : ref) (c : Category)
    (amount : float) :
  objects w !! self = Some c ->
  exists ok,
    check_funds self amount w = Returns ok w /\
    (forall description,
       exists w', withdraw self amount description w = Returns ok w') /\
    (forall destination dst,
       objects w !! destination = Some dst ->
       exists w', transfer self amount destination w = Returns ok w').
Proof.
  intros H. exists (amount <=? sum_amounts (ledger c)).
  split; [now apply check_funds_spec|]. split.
  - intros description. rewrite (withdraw_spec _ _ _ _ _ H).
    destruct (amount <=? _); eexists; reflexivity.
  - intros destination dst Hd. rewrite (transfer_spec _ _ _ _ _ _ H Hd).
    destruct (amount <=? _); [|eexists; reflexivity]. cbv zeta.
    destruct (decide (self = destination)) as [<-|Hne].
    + rewrite appended_lookup. eexists; reflexivity.
    + rewrite (appended_lookup_ne _ _ _ _ _ Hne), Hd. eexists; reflexivity.
Qed.

Lemma transfer_to_same_category_witness :
  transfer Examples.food 30 Examples.food Examples.hundred_world
    = Returns true
        (mkWorld
           (<[Examples.food :=
                mkCategory (lit "Food")
                  [mkLedgerElement 100 (lit "initial");
                   mkLedgerElement (-30) (lit "Transfer to Food");
                   mkLedgerElement 30 (lit "Transfer from Food")]]>
              (objects Examples.hundred_world))
           (stdout Examples.hundred_world)).
Proof.
  exact (proj1 (transfer_to_same_category Examples.hundred_world Examples.food
                  Examples.food_100 30 eq_refl)).
Defined.

Lemma check_funds_decides_witness :
  exists ok,
    check_funds Examples.food 105.25 Examples.two_world
      = Returns ok Examples.two_world /\
    (forall description,
       exists w', withdraw Examples.food 105.25 description Examples.two_world
                  = Returns ok w') /\
    (forall destination dst,
       objects Examples.two_world !! destination = Some dst ->
       exists w', transfer Examples.food 105.25 destination Examples.two_world
                  = Returns ok w').
Proof.
  exact (check_funds_decides Examples.two_world Examples.food Examples.food_900
           105.25 eq_refl).
Defined.

End Aliasing.

Section Poison.
Local Open Scope float_scope.
Import FloatFacts.

Lemma Prim2SF_nan : Prim2SF nan = S754_nan.
Proof. reflexivity. Qed.

Lemma add_nan_l x : nan + x = nan.
Proof. apply Prim2SF_inj. now rewrite add_spec, Prim2SF_nan. Qed.

Lemma add_nan_r x : x + nan = nan.
Proof.
  apply Prim2SF_inj. rewrite add_spec, Prim2SF_nan.
  now destruct (Prim2SF x).
Qed.

Lemma leb_nan_r x : (x <=? nan) = false.
Proof.
  rewrite FloatAxioms.leb_spec, Prim2SF_nan. unfold SFleb.
  now destruct (Prim2SF x).
Qed.

Lemma leb_nan_l x : (nan <=? x) = false.
Proof. now rewrite FloatAxioms.leb_spec, Prim2SF_nan. Qed.

Lemma balance_loop_nan l : balance_loop l nan = nan.
Proof.
  unfold balance_loop. induction l as [|e l IH]; [reflexivity|].
  cbn [fold_left]. now rewrite add_nan_l.
Qed.

Lemma balance_loop_poisoned l : forall balance,
  (exists element, element ∈ l /\ amount element = nan) ->
  balance_loop l balance = nan.
Proof.
  induction l as [|e l IH]; intros balance (element & Hin & Hnan).
  - inversion Hin.
  - change (balance_loop (e :: l) balance) with (balance_loop l (balance + amount e)).
    apply elem_of_cons in Hin as [->|Hin].
    + rewrite Hnan, add_nan_r. apply balance_loop_nan.
    + apply IH. now exists element.
Qed.

(** X6.  Once the ledger of a category holds a NaN amount, which
    [deposit] accepts, its balance is NaN and every later [withdraw] and
    [transfer] from it returns false and changes nothing, whatever the
    amount. *)
Theorem nan_freezes_category (w : world) (self : ref) (c : Category)
    (element : LedgerElement) :
  objects w !! self = Some c ->
  element ∈ ledger c ->
  amount element = nan ->
  get_balance self w = Returns nan w /\
  (forall amount description,
     withdraw self amount description w = Returns false w) /\
  (forall amount destination,
     transfer self amount destination w = Returns false w).
Proof.
  intros H Hin Hnan.
  assert (S : sum_amounts (ledger c) = nan).
  { rewrite <- balance_loop_sum. apply balance_loop_poisoned. now exists element. }
  split; [|split].
  - now rewrite (get_balance_spec _ _ _ H), S.
  - intros amount description.
    now rewrite (withdraw_spec _ _ _ _ _ H), S, leb_nan_r.
  - intros amount destination. unfold transfer, bind.
    now rewrite (check_funds_spec _ _ _ _ H), S, leb_nan_r.
Qed.

Lemma nan_freezes_category_witness :
  get_balance Examples.food MoreExamples.nan_world
    = Returns nan MoreExamples.nan_world /\
  (forall amount description,
     withdraw Examples.food amount description MoreExamples.nan_world
       = Returns false MoreExamples.nan_world) /\
  (forall amount destination,
     transfer Examples.food amount destination MoreExamples.nan_world
       = Returns false MoreExamples.nan_world).
Proof.
  refine (nan_freezes_category MoreExamples.nan_world Examples.food
            MoreExamples.food_nan (mkLedgerElement nan (lit "broken"))
            eq_refl _ eq_refl).
  apply elem_of_cons. right. apply elem_of_cons. now left.
Defined.

End Poison.

(** ** When the chart fails *)

Section ChartErrors.
Local Open Scope float_scope.
Import FloatFacts SignFacts.

Lemma withdraws_loop_ok categories cats : forall acc w,
  Forall2 (fun category c => objects w !! category = Some c) categories cats ->
  withdraws_loop categories acc w
    = Returns (acc ++ map (fun c => mkWithdraw (name c) (withdraw_sum (ledger c))) cats) w.
Proof.
  intros acc w HF. revert acc.
  induction HF as [|category c rest cats L _ IH]; intros acc.
  - cbn. now rewrite app_nil_r.
  - cbn [withdraws_loop map]. unfold bind, deref. rewrite L, IH.
    now rewrite <- app_assoc.
Qed.

Lemma floor_raises x e :
  Float.floor x = Raise e -> e = ValueError \/ e = OverflowError.
Proof.
  unfold Float.floor. destruct (Prim2SF x) as [s|s| |s m [|p|p]]; intros [= <-]; auto.
Qed.

Lemma withdraw_percent_zero_division overall amount :
  withdraw_percent overall amount = Raise ZeroDivisionError <->
  is_zero overall = true.
Proof.
  unfold withdraw_percent, Float.truediv. destruct (is_zero overall).
  - now split.
  - cbn [rbind]. split; [|discriminate].
    destruct (Float.floor _) as [n|e] eqn:E; [discriminate|].
    cbn [rbind]. intros [= ->]. now destruct (floor_raises _ _ E).
Qed.

Lemma x_axis_loop_zero_division overall withdraws : forall acc m,
  x_axis_loop overall withdraws acc m = Raise ZeroDivisionError <->
  withdraws <> [] /\ is_zero overall = true.
Proof.
  induction withdraws as [|withdraw rest IH]; intros acc m.
  - cbn. split; [discriminate|]. now intros [? _].
  - cbn [x_axis_loop]. split.
    + intros H. split; [discriminate|].
      destruct (withdraw_percent overall (w_amount withdraw)) as [p|e] eqn:E.
      * cbn [rbind] in H. now apply IH in H.
      * cbn [rbind] in H. injection H as ->.
        now apply withdraw_percent_zero_division in E.
    + intros [_ H].
      now rewrite (proj2 (withdraw_percent_zero_division _ (w_amount withdraw)) H).
Qed.

(** X8.  For categories that all exist, [create_spend_chart] raises
    [ZeroDivisionError] exactly when there is at least one category and no
    ledger of any of them holds a negative amount. *)
Theorem chart_needs_a_withdrawal (w : world) (categories : list ref)
    (cats : list Category) :
  Forall2 (fun category c => objects w !! category = Some c) categories cats ->
  (exists w', create_spend_chart categories w = Raises ZeroDivisionError w') <->
  categories <> [] /\ Forall nothing_spent cats.
Proof.
  intros HF. pose proof (withdraws_loop_ok _ _ [] w HF) as Hw. cbn [app] in Hw.
  set (withdraws := map _ cats) in Hw.
  assert (Hz : is_zero (overall_loop withdraws) = true <-> Forall nothing_spent cats).
  { destruct (overall_loop_sign withdraws) as [_ ->].
    - unfold withdraws. rewrite Forall_map. apply Forall_forall. intros c _.
      apply (withdraw_sum_sign (ledger c)).
    - unfold withdraws. rewrite Forall_map. apply Forall_iff. intros c.
      cbn [w_amount]. apply (withdraw_sum_sign (ledger c)). }
  assert (Hn : withdraws <> [] <-> categories <> []).
  { unfold withdraws. destruct HF; cbn; split; congruence. }
  rewrite <- Hz, <- Hn, <- (x_axis_loop_zero_division _ _ [] 0%Z).
  unfold create_spend_chart, bind. rewrite Hw. unfold lift at 1.
  destruct (x_axis_loop (overall_loop withdraws) withdraws [] 0) as [[x_axis m]|e].
  - cbn [fst snd]. destruct y_axis_labels as [-> Hl].
    rewrite (rows_loop_spec x_axis labels Hl). unfold lift, print, ret.
    split; [intros [w' H]; discriminate|discriminate].
  - split; [intros [w' [= ->]]; reflexivity|intros [= ->]; now exists w].
Qed.

Lemma chart_needs_a_withdrawal_witness :
  (exists w',
     create_spend_chart [Examples.food] Examples.saved_world
       = Raises ZeroDivisionError w') <->
  [Examples.food] <> [] /\ Forall nothing_spent [MoreExamples.food_1000].
Proof.
  refine (chart_needs_a_withdrawal Examples.saved_world [Examples.food]
            [MoreExamples.food_1000] _).
  constructor; [reflexivity|constructor].
Defined.

End ChartErrors.

(** ** The bars *)

Section Bars.
Local Open Scope float_scope.
Import FloatFacts SignFacts.

Lemma plus_signed_unsigned x : plus_signed x -> B64Sign.unsigned (Prim2SF x) = true.
Proof. unfold plus_signed, B64Sign.unsigned. now intros ->. Qed.

Lemma floor_unsigned x n :
  B64Sign.unsigned (Prim2SF x) = true -> Float.floor x = Ok n -> (0 <= n)%Z.
Proof.
  unfold Float.floor, B64Sign.unsigned.
  destruct (Prim2SF x) as [s|s| |s m e]; simpl; try discriminate.
  - now intros _ [= <-].
  - destruct s; [discriminate|]. intros _.
    destruct e as [|p|p]; intros [= <-]; cbn [cond_Zopp].
    + lia.
    + apply Z.mul_nonneg_nonneg; [lia|]. apply Z.pow_nonneg. lia.
    + apply Z.div_pos; [lia|]. apply Z.pow_pos_nonneg; lia.
Qed.

(** A percentage that is computed is a multiple of 10 and not negative. *)
Lemma withdraw_percent_sign overall amount p :
  plus_signed overall -> plus_signed amount ->
  withdraw_percent overall amount = Ok p ->
  (0 <= p)%Z /\ (p mod 10 = 0)%Z.
Proof.
  intros Ho Ha. unfold withdraw_percent, Float.truediv.
  destruct (is_zero overall); [discriminate|]. cbn [rbind].
  destruct (Float.floor _) as [n|e] eqn:E; [|discriminate].
  cbn [rbind]. intros [= <-].
  apply floor_unsigned in E.
  - split; [lia|]. apply Z.mod_mul. lia.
  - rewrite div_spec, mul_spec, div_spec.
    apply B64SignFacts.SFdiv_unsigned; [|reflexivity].
    apply B64SignFacts.SFmul_unsigned; [|now apply plus_signed_unsigned].
    apply B64SignFacts.SFdiv_unsigned; [reflexivity|now apply plus_signed_unsigned].
Qed.

Lemma create_spend_chart_returns w categories withdraws x_axis max_name_length :
  withdraws_loop categories [] w = Returns withdraws w ->
  x_axis_loop (overall_loop withdraws) withdraws [] 0 = Ok (x_axis, max_name_length) ->
  let result :=
    title ++ body_spec x_axis ++ separator_spec (length x_axis)
      ++ names_spec x_axis max_name_length in
  create_spend_chart categories w
    = Returns result (mkWorld (objects w) (stdout w ++ [result])).
Proof.
  intros Hw Hx result.
  unfold create_spend_chart, bind. rewrite Hw. unfold lift at 1. rewrite Hx.
  cbn [fst snd]. destruct y_axis_labels as [-> Hl].
  rewrite (rows_loop_spec x_axis labels Hl). unfold lift, print, ret.
  rewrite labels_loop_app. unfold len.
  rewrite <- !app_assoc, separator_line.
  unfold result, title, body_spec, names_spec.
  now rewrite <- !app_assoc.
Qed.

Lemma bars_sign w categories withdraws x_axis max_name_length :
  withdraws_loop categories [] w = Returns withdraws w ->
  x_axis_loop (overall_loop withdraws) withdraws [] 0 = Ok (x_axis, max_name_length) ->
  Forall (fun x_element =>
            (0 <= x_value x_element)%Z /\ (x_value x_element mod 10 = 0)%Z) x_axis.
Proof.
  intros Hw Hx.
  destruct (withdraws_loop_spec _ _ _ _ _ Hw) as (_ & cats & _ & Hws).
  destruct (x_axis_loop_spec _ _ _ _ _ _ Hx) as (bars & Hbars & HF).
  cbn [app] in Hws, Hbars. subst bars.
  assert (Hp : Forall (fun withdraw => plus_signed (w_amount withdraw)) withdraws).
  { rewrite Hws, Forall_map. apply Forall_forall. intros c _.
    apply (withdraw_sum_sign (ledger c)). }
  destruct (overall_loop_sign withdraws Hp) as [Ho _].
  revert Hp. generalize (overall_loop withdraws) Ho HF. clear.
  intros overall Ho HF. induction HF as [|withdraw x_element ws xs [_ Hpc] _ IH];
    intros Hp; constructor.
  - apply Forall_inv in Hp. exact (withdraw_percent_sign _ _ _ Ho Hp Hpc).
  - apply IH. now apply Forall_inv_tail in Hp.
Qed.

(** X9.  Every percentage that is computed is a multiple of 10 and is not
    negative, so in every chart that is returned the row of the label 0,
    the last one above the separator, has a filled cell [" o "] for every
    category. *)
Theorem bottom_row_is_full (w : world) (categories : list ref)
    (withdraws : list Withdraw) (x_axis : list XAxis) (max_name_length : Z) :
  withdraws_loop categories [] w = Returns withdraws w ->
  x_axis_loop (overall_loop withdraws) withdraws [] 0
    = Ok (x_axis, max_name_length) ->
  Forall (fun x_element =>
            (0 <= x_value x_element)%Z /\ (x_value x_element mod 10 = 0)%Z)
         x_axis /\
  exists upper_rows result,
    create_spend_chart categories w
      = Returns result (mkWorld (objects w) (stdout w ++ [result])) /\
    result
      = title ++ upper_rows
          ++ (lit "  0|" ++ concat (map (fun _ => lit " o ") x_axis)
                ++ lit " " ++ [newline])
          ++ separator_spec (length x_axis)
          ++ names_spec x_axis max_name_length.
Proof.
  intros Hw Hx. pose proof (bars_sign _ _ _ _ _ Hw Hx) as Hs.
  split; [exact Hs|].
  exists (concat (map (row_spec x_axis) [100; 90; 80; 70; 60; 50; 40; 30; 20; 10]%Z)).
  eexists. split; [exact (create_spend_chart_returns _ _ _ _ _ Hw Hx)|].
  cbv zeta. unfold body_spec, labels.
  change [100; 90; 80; 70; 60; 50; 40; 30; 20; 10; 0]%Z
    with ([100; 90; 80; 70; 60; 50; 40; 30; 20; 10] ++ [0])%Z.
  rewrite map_app, concat_app.
  change (concat (map (row_spec x_axis) [0%Z])) with (row_spec x_axis 0 ++ []).
  rewrite app_nil_r, <- (app_assoc (concat _)).
  do 2 f_equal. f_equal. unfold row_spec.
  change (rjust (decimal 0 ++ lit "|") 4 space) with (lit "  0|"). do 3 f_equal.
  apply map_ext_Forall. eapply Forall_impl; [exact Hs|].
  intros x [H0 _]. unfold cell_spec. cbv beta.
  now destruct (Z.leb_spec 0 (x_value x)); [|lia].
Qed.

Lemma bottom_row_is_full_witness :
  Forall (fun x_element =>
            (0 <= x_value x_element)%Z /\ (x_value x_element mod 10 = 0)%Z)
         MoreExamples.even_x_axis.
Proof.
  exact (proj1 (bottom_row_is_full Examples.even_world
                  [Examples.food; Examples.auto] MoreExamples.even_withdraws
                  MoreExamples.even_x_axis 4 eq_refl eq_refl)).
Defined.

End Bars.

(** ** The lines of the chart *)

Section Names.

Lemma withdraws_loop_outcome categories : forall acc w,
  match withdraws_loop categories acc w with
  | Returns _ w' => w' = w
  | Raises _ _ => False
  | NoSuchObject => exists r, r ∈ categories /\ objects w !! r = None
  end.
Proof.
  induction categories as [|category rest IH]; intros acc w; cbn [withdraws_loop].
  - reflexivity.
  - unfold bind, deref. destruct (objects w !! category) as [c|] eqn:L.
    + specialize (IH (acc ++ [mkWithdraw (name c) (withdraw_sum (ledger c))]) w).
      destruct (withdraws_loop rest _ w); try exact IH.
      destruct IH as (r & Hr & Hn). exists r. split; [now apply elem_of_cons; right|exact Hn].
    + exists category. split; [apply elem_of_cons; now left|exact L].
Qed.

(** X7.  [create_spend_chart] never changes a category: when it returns,
    the objects are as they were and the output has gained the returned
    chart and nothing else; when it raises, nothing was printed; it stops
    otherwise only on a category that does not exist. *)
Theorem chart_only_reads (w : world) (categories : list ref) :
  match create_spend_chart categories w with
  | Returns result w' =>
      objects w' = objects w /\ stdout w' = stdout w ++ [result]
  | Raises e w' => w' = w
  | NoSuchObject => exists r, r ∈ categories /\ objects w !! r = None
  end.
Proof.
  unfold create_spend_chart, bind.
  pose proof (withdraws_loop_outcome categories [] w) as H.
  destruct (withdraws_loop categories [] w) as [withdraws w'|e w'|]; try exact H;
    [subst w'|contradiction].
  unfold lift at 1.
  destruct (x_axis_loop _ withdraws [] 0) as [[x_axis m]|e]; [|reflexivity].
  cbn [fst snd]. destruct y_axis_labels as [-> Hl].
  rewrite (rows_loop_spec x_axis labels Hl). unfold lift, print, ret.
  now split.
Qed.

Lemma line_loop x_axis i : forall line,
  fold_left (fun line x_element => line ++ label_cell x_element i) x_axis line
    = line ++ concat (map (fun x_element => label_cell x_element i) x_axis).
Proof.
  induction x_axis as [|x rest IH]; intros line; cbn [fold_left map concat].
  - now rewrite app_nil_r.
  - now rewrite IH, <- app_assoc.
Qed.

Lemma labels_loop_join x_axis todo : forall i,
  labels_loop x_axis (Z.of_nat (i + todo)) todo i []
    = join_lines (map (name_row x_axis) (seq i todo)).
Proof.
  induction todo as [|todo IH]; intros i; [reflexivity|].
  cbn [labels_loop seq map]. rewrite line_loop. fold (name_row x_axis i).
  rewrite labels_loop_app. replace (i + S todo)%nat with (S i + todo)%nat by lia.
  rewrite IH. cbn [app].
  destruct (Z.ltb_spec (Z.of_nat i) (Z.of_nat (S i + todo) - 1)) as [Hlt|Hge].
  - destruct todo as [|todo]; [lia|]. cbn [seq map join_lines].
    unfold name_row. now rewrite <- !app_assoc.
  - destruct todo as [|todo]; [|lia]. cbn [seq map join_lines].
    unfold name_row. now rewrite !app_nil_r, <- !app_assoc.
Qed.

Lemma x_axis_loop_max overall withdraws : forall acc m x_axis m',
  (0 <= m)%Z ->
  x_axis_loop overall withdraws acc m = Ok (x_axis, m') ->
  m' = Z.max m (Z.of_nat (max_list (map (fun w => length (w_name w)) withdraws))) /\
  map x_name x_axis = map x_name acc ++ map w_name withdraws.
Proof.
  induction withdraws as [|withdraw rest IH]; intros acc m x_axis m' Hm H.
  - injection H as <- <-. cbn. rewrite app_nil_r. split; [lia|reflexivity].
  - cbn [x_axis_loop] in H.
    destruct (withdraw_percent overall (w_amount withdraw)) as [p|e]; [|discriminate].
    cbn [rbind] in H. apply IH in H as [-> ->]; [|lia]. split.
    + cbn [map]. 
      change (max_list (?x :: ?l)) with (Nat.max x (max_list l)).
      unfold len. lia.
    + rewrite map_app. cbn [map x_name]. now rewrite <- app_assoc.
Qed.


Lemma longest_name_withdraws overall withdraws x_axis m :
  x_axis_loop overall withdraws [] 0 = Ok (x_axis, m) ->
  m = Z.of_nat (longest_name x_axis).
Proof.
  intros H. apply x_axis_loop_max in H as [-> Hn]; [|lia]. cbn [map app] in Hn.
  unfold longest_name.
  rewrite <- (map_map x_name (fun s : str => length s)), Hn, map_map. lia.
Qed.

Lemma cells_length label x_axis :
  length (concat (map (cell_spec label) x_axis)) = (3 * length x_axis)%nat.
Proof.
  induction x_axis as [|x rest IH]; [reflexivity|].
  cbn [map concat length]. rewrite length_app, IH. unfold cell_spec.
  destruct (label <=? x_value x)%Z; cbn; lia.
Qed.

Lemma name_row_length x_axis i :
  length (name_row x_axis i) = (3 * length x_axis + 5)%nat.
Proof.
  unfold name_row. rewrite !length_app.
  assert (H : length (concat (map (fun x => label_cell x i) x_axis))
              = (3 * length x_axis)%nat).
  { induction x_axis as [|x rest IH]; [reflexivity|].
    cbn [map concat length]. rewrite length_app, IH. unfold label_cell.
    destruct (index (x_name x) i); cbn; lia. }
  rewrite H. cbn. lia.
Qed.

(** The part of a chart row before its newline. *)
Lemma row_spec_length x_axis label :
  label ∈ labels ->
  exists line,
    row_spec x_axis label = line ++ [newline] /\
    length line = (3 * length x_axis + 5)%nat.
Proof.
  intros Hl.
  exists (rjust (decimal label ++ lit "|") 4 space
            ++ concat (map (cell_spec label) x_axis) ++ lit " ").
  split; [unfold row_spec; now rewrite <- !app_assoc|].
  rewrite !length_app, cells_length.
  assert (H : length (rjust (decimal label ++ lit "|") 4 space) = 4%nat).
  { unfold labels in Hl.
    repeat (apply elem_of_cons in Hl as [->|Hl]; [reflexivity|]). inversion Hl. }
  rewrite H. cbn. lia.
Qed.

Lemma rows_lines x_axis ls :
  Forall (fun label => label ∈ labels) ls ->
  exists lines,
    concat (map (row_spec x_axis) ls)
      = concat (map (fun line => line ++ [newline]) lines) /\
    length lines = length ls /\
    Forall (fun line => length line = (3 * length x_axis + 5)%nat) lines.
Proof.
  induction 1 as [|label ls Hl _ (lines & E & Hlen & HF)].
  - exists []. repeat split. constructor.
  - destruct (row_spec_length x_axis label Hl) as (line & El & Hline).
    exists (line :: lines). cbn [map concat length]. rewrite El, E, Hlen.
    repeat split. now constructor.
Qed.

(** X10.  Every line of a returned chart below the title, the eleven rows,
    the separator and the name rows, has the same number of characters,
    [3 * n + 5] for [n] categories. *)
Theorem chart_lines_have_one_width (w : world) (categories : list ref)
    (withdraws : list Withdraw) (x_axis : list XAxis) (max_name_length : Z) :
  withdraws_loop categories [] w = Returns withdraws w ->
  x_axis_loop (overall_loop withdraws) withdraws [] 0
    = Ok (x_axis, max_name_length) ->
  exists lines name_rows result,
    create_spend_chart categories w
      = Returns result (mkWorld (objects w) (stdout w ++ [result])) /\
    result
      = title ++ concat (map (fun line => line ++ [newline]) lines)
          ++ join_lines name_rows /\
    length lines = 12%nat /\
    length name_rows = Z.to_nat max_name_length /\
    Forall (fun line => length line = (3 * length x_axis + 5)%nat)
           (lines ++ name_rows).
Proof.
  intros Hw Hx.
  pose proof (longest_name_withdraws _ _ _ _ Hx) as Hm.
  destruct (rows_lines x_axis labels) as (lines & Hbody & Hlen & HF);
    [apply Forall_forall; auto|].
  fold (body_spec x_axis) in Hbody. change (length labels) with 11%nat in Hlen.
  exists (lines ++ [repeat space 4 ++ repeat "-"%char (3 * length x_axis + 1)]),
         (map (name_row x_axis) (seq 0 (longest_name x_axis))).
  eexists. split; [exact (create_spend_chart_returns _ _ _ _ _ Hw Hx)|].
  cbv zeta. split; [|split; [|split]].
  - rewrite Hbody, map_app, concat_app. cbn [map concat].
    unfold separator_spec, names_spec. rewrite Hm, Nat2Z.id.
    rewrite <- (labels_loop_join x_axis (longest_name x_axis) 0).
    now rewrite app_nil_r, <- !app_assoc.
  - rewrite length_app, Hlen. reflexivity.
  - rewrite length_map, length_seq, Hm. lia.
  - rewrite !Forall_app. split; [split; [exact HF|]|].
    + constructor; [|constructor]. rewrite length_app, !repeat_length. lia.
    + apply Forall_forall. intros l Hl. apply list_elem_of_fmap in Hl as (i & -> & _).
      apply name_row_length.
Qed.

Lemma chart_lines_have_one_width_witness :
  exists lines name_rows result,
    create_spend_chart [Examples.food; Examples.auto] Examples.even_world
      = Returns result
          (mkWorld (objects Examples.even_world)
                   (stdout Examples.even_world ++ [result])) /\
    result
      = title ++ concat (map (fun line => line ++ [newline]) lines)
          ++ join_lines name_rows /\
    length lines = 12%nat /\
    length name_rows = Z.to_nat 4 /\
    Forall (fun line => length line = (3 * length MoreExamples.even_x_axis + 5)%nat)
           (lines ++ name_rows).
Proof.
  exact (chart_lines_have_one_width Examples.even_world
           [Examples.food; Examples.auto] MoreExamples.even_withdraws
           MoreExamples.even_x_axis 4 eq_refl eq_refl).
Defined.

Lemma label_cell_nth x_element i :
  label_cell x_element i = [space; nth i (x_name x_element) space; space].
Proof.
  unfold label_cell, index.
  destruct (nth_error (x_name x_element) i) as [ch|] eqn:E.
  - now rewrite (nth_error_nth _ _ space E).
  - apply nth_error_None in E. now rewrite (nth_overflow _ space E).
Qed.

Lemma name_row_spec x_axis i :
  name_row x_axis i = names_row_spec (map x_name x_axis) i.
Proof.
  unfold name_row, names_row_spec. rewrite map_map.
  f_equal. f_equal. f_equal.
  apply map_ext. intros x. apply label_cell_nth.
Qed.

Lemma lines_length (k : nat) (lines : list str) :
  Forall (fun line => length line = k) lines ->
  length (concat (map (fun line => line ++ [newline]) lines))
    = (length lines * (k + 1))%nat.
Proof.
  induction 1 as [|line lines Hl _ IH]; [reflexivity|].
  cbn [map concat length]. rewrite !length_app, IH, Hl. cbn [length]. lia.
Qed.

(** X11.  In every chart that is returned, the eleven rows are followed by
    the separator and then by as many rows as the longest category name
    has characters; row [i] is four spaces, then for each category in
    input order a space, the [i]-th character of its name, or a space when
    the name is shorter, and a space, then one more space; the rows are
    joined by newlines and the last one has none after it. *)
Theorem names_are_written_downwards (w w' : world) (categories : list ref)
    (cats : list Category) (result : str) :
  Forall2 (fun category c => objects w !! category = Some c) categories cats ->
  create_spend_chart categories w = Returns result w' ->
  let names := map name cats in
  let height := max_list (map (fun name : str => length name) names) in
  exists rows,
    length rows = (11 * (3 * length cats + 6))%nat /\
    result
      = title ++ rows ++ separator_spec (length cats)
          ++ join_lines (map (names_row_spec names) (seq 0 height)).
Proof.
  intros HF H names height.
  pose proof (withdraws_loop_ok _ _ [] w HF) as Hw. cbn [app] in Hw.
  set (withdraws := map _ cats) in Hw.
  destruct (x_axis_loop (overall_loop withdraws) withdraws [] 0)
    as [[x_axis m]|e] eqn:Hx.
  2:{ unfold create_spend_chart, bind in H. rewrite Hw in H.
      unfold lift at 1 in H. rewrite Hx in H. discriminate H. }
  rewrite (create_spend_chart_returns _ _ _ _ _ Hw Hx) in H. cbv zeta in H.
  injection H as <- _.
  pose proof (longest_name_withdraws _ _ _ _ Hx) as Hm.
  apply x_axis_loop_max in Hx as [_ Hn]; [|lia]. cbn [map app] in Hn.
  assert (Hnames : map x_name x_axis = names).
  { rewrite Hn. unfold withdraws, names. rewrite map_map. reflexivity. }
  assert (Hlen : length x_axis = length cats).
  { rewrite <- (length_map x_name x_axis), Hnames. unfold names.
    apply length_map. }
  assert (Hh : longest_name x_axis = height).
  { unfold longest_name, height. rewrite <- Hnames, map_map. reflexivity. }
  exists (body_spec x_axis). split.
  - unfold body_spec.
    destruct (rows_lines x_axis labels) as (lines & -> & Hl & Hk).
    { apply Forall_forall. auto. }
    rewrite (lines_length _ _ Hk). unfold str. rewrite Hl, Hlen.
    cbn [length labels]. lia.
  - rewrite Hlen. unfold names_spec. rewrite Hm, Nat2Z.id.
    pose proof (labels_loop_join x_axis (longest_name x_axis) 0) as J.
    cbn [Nat.add] in J. rewrite J, Hh.
    replace (map (name_row x_axis) (seq 0 height))
      with (map (names_row_spec names) (seq 0 height)); [reflexivity|].
    apply map_ext. intros i. now rewrite name_row_spec, Hnames.
Qed.

Lemma names_are_written_downwards_witness :
  exists rows,
    length rows = 132%nat /\
    Examples.even_chart
      = lit "Percentage spent by category" ++ [newline] ++ rows
          ++ lit "    -------" ++ [newline]
          ++ lit "     F  A  " ++ [newline]
          ++ lit "     o  u  " ++ [newline]
          ++ lit "     o  t  " ++ [newline]
          ++ lit "     d  o  ".
Proof.
  refine (names_are_written_downwards Examples.even_world _
            [Examples.food; Examples.auto]
            [MoreExamples.even_food; MoreExamples.even_auto]
            Examples.even_chart _ eq_refl).
  constructor; [reflexivity|]. constructor; [reflexivity|]. constructor.
Defined.

End Names.

(** ** What counts as spending *)

Section Accounting.
Local Open Scope float_scope.
Import FloatFacts SignFacts.

Lemma opp_involutive x : - - x = x.
Proof.
  apply Prim2SF_inj. rewrite !opp_spec.
  destruct (Prim2SF x) as [s|s| |s m e]; simpl; now rewrite ?negb_involutive.
Qed.

Lemma positive_amount a :
  (0 <? a) = true -> (- a <? 0) = true /\ (a <? 0) = false.
Proof.
  rewrite !FloatAxioms.ltb_spec, opp_spec. change (Prim2SF 0) with (S754_zero false).
  unfold SFltb. destruct (Prim2SF a) as [s|s| |s m e]; simpl; try discriminate;
    destruct s; try discriminate; now split.
Qed.

Lemma negative_amount a :
  (a <? 0) = true ->
  (0 <? - a) = true /\ (- a <? 0) = false /\
  forall b, (0 <=? b) = true -> (a <=? b) = true.
Proof.
  rewrite !FloatAxioms.ltb_spec, opp_spec. change (Prim2SF 0) with (S754_zero false).
  unfold SFltb. intros H. split; [|split].
  - destruct (Prim2SF a) as [s|s| |s m e]; simpl in *; try discriminate;
      destruct s; try discriminate; reflexivity.
  - destruct (Prim2SF a) as [s|s| |s m e]; simpl in *; try discriminate;
      destruct s; try discriminate; reflexivity.
  - intros b. rewrite !FloatAxioms.leb_spec. change (Prim2SF 0) with (S754_zero false).
    unfold SFleb.
    destruct (Prim2SF a) as [s|s| |s m e]; simpl in *; try discriminate;
      destruct s; try discriminate;
      destruct (Prim2SF b) as [s'|s'| |s' m' e']; simpl; try discriminate;
      destruct s'; try discriminate; reflexivity.
Qed.

(** X12.  For an amount above zero: a successful [withdraw] raises the
    total that the chart counts for the category by that amount, a
    [deposit] leaves it as it was, and a successful [transfer] to another
    category raises the total of the source by the amount and leaves that
    of the destination as it was. *)
Theorem spending_of_positive_amounts (w : world) (self : ref) (c : Category)
    (amount : float) :
  objects w !! self = Some c ->
  (0 <? amount) = true ->
  (forall description w',
     withdraw self amount description w = Returns true w' ->
     exists c',
       objects w' !! self = Some c' /\
       withdraw_sum (ledger c') = withdraw_sum (ledger c) + amount) /\
  (forall description,
     exists w' c',
       deposit self amount description w = Returns tt w' /\
       objects w' !! self = Some c' /\
       withdraw_sum (ledger c') = withdraw_sum (ledger c)) /\
  (forall destination dst w',
     destination <> self ->
     objects w !! destination = Some dst ->
     transfer self amount destination w = Returns true w' ->
     exists c' dst',
       objects w' !! self = Some c' /\
       objects w' !! destination = Some dst' /\
       withdraw_sum (ledger c') = withdraw_sum (ledger c) + amount /\
       withdraw_sum (ledger dst') = withdraw_sum (ledger dst)).
Proof.
  intros H Hpos. destruct (positive_amount _ Hpos) as [Hneg Hnn].
  assert (Hout : forall description,
            withdraw_sum (ledger c ++ [mkLedgerElement (- amount) description])
              = withdraw_sum (ledger c) + amount).
  { intros description. rewrite withdraw_sum_step. cbn.
    now rewrite Hneg, mul_minus_one, opp_involutive. }
  assert (Hin : forall (c0 : Category) description,
            withdraw_sum (ledger c0 ++ [mkLedgerElement amount description])
              = withdraw_sum (ledger c0)).
  { intros c0 description. rewrite withdraw_sum_step. cbn. now rewrite Hnn. }
  split; [|split].
  - intros description w' Hw. rewrite (withdraw_spec _ _ _ _ _ H) in Hw.
    destruct (amount <=? _); [|discriminate]. injection Hw as <-.
    eexists. split; [apply appended_lookup|]. apply Hout.
  - intros description. rewrite (deposit_spec _ _ _ _ _ H).
    eexists _, _. split; [reflexivity|]. split; [apply appended_lookup|]. apply Hin.
  - intros destination dst w' Hne Hd Hw.
    rewrite (transfer_distinct _ _ _ _ _ _ H Hd ltac:(congruence)) in Hw.
    destruct (amount <=? _); [|discriminate]. injection Hw as <-.
    eexists _, _. split; [|split; [apply appended_lookup|split]].
    + rewrite appended_lookup_ne by exact Hne. apply appended_lookup.
    + apply Hout.
    + apply Hin.
Qed.

(** X13.  The sign of an amount is not checked.  A [deposit] of an amount
    below zero always succeeds and is counted by the chart as spending of
    its absolute value; a [withdraw] of an amount below zero from a
    category whose balance is at least zero always succeeds, appends the
    positive entry [-amount] and is not counted as spending. *)
Theorem negative_amounts_swap_roles (w : world) (self : ref) (c : Category)
    (amount : float) :
  objects w !! self = Some c ->
  (amount <? 0) = true ->
  (forall description,
     exists w' c',
       deposit self amount description w = Returns tt w' /\
       objects w' !! self = Some c' /\
       withdraw_sum (ledger c') = withdraw_sum (ledger c) + abs amount) /\
  ((0 <=? sum_amounts (ledger c)) = true ->
   forall description,
     exists w' c',
       withdraw self amount description w = Returns true w' /\
       objects w' !! self = Some c' /\
       ledger c' = ledger c ++ [mkLedgerElement (- amount) description] /\
       (0 <? - amount) = true /\
       withdraw_sum (ledger c') = withdraw_sum (ledger c)).
Proof.
  intros H Hneg. destruct (negative_amount _ Hneg) as (Hpos & Hnn & Hle).
  split.
  - intros description. rewrite (deposit_spec _ _ _ _ _ H).
    eexists _, _. split; [reflexivity|]. split; [apply appended_lookup|].
    cbn [ledger]. rewrite withdraw_sum_step. cbn.
    now rewrite Hneg, negative_amount_abs.
  - intros Hb description. rewrite (withdraw_spec _ _ _ _ _ H), (Hle _ Hb).
    eexists _, _. split; [reflexivity|]. split; [apply appended_lookup|].
    cbn [ledger]. split; [reflexivity|]. split; [exact Hpos|].
    rewrite withdraw_sum_step. cbn. now rewrite Hnn.
Qed.

(** X14.  After [deposit(amount)] the balance is the old balance plus
    [amount]; after [withdraw(amount)] it is the old balance minus
    [amount] when the call returned true and the old balance when it
    returned false. *)
Theorem balance_bookkeeping (w : world) (self : ref) (c : Category)
    (amount : float) :
  objects w !! self = Some c ->
  let balance := sum_amounts (ledger c) in
  (forall description,
     exists w',
       deposit self amount description w = Returns tt w' /\
       get_balance self w' = Returns (balance + amount) w') /\
  (forall description,
     exists ok w',
       withdraw self amount description w = Returns ok w' /\
       get_balance self w'
         = Returns (if ok then balance - amount else balance) w').
Proof.
  intros H balance. split; intros description.
  - rewrite (deposit_spec _ _ _ _ _ H). eexists. split; [reflexivity|].
    rewrite (get_balance_spec _ _ _ (appended_lookup _ _ _ _)).
    cbn [ledger]. now rewrite sum_amounts_snoc.
  - rewrite (withdraw_spec _ _ _ _ _ H). destruct (amount <=? _).
    + eexists _, _. split; [reflexivity|].
      rewrite (get_balance_spec _ _ _ (appended_lookup _ _ _ _)).
      cbn [ledger]. now rewrite sum_after_withdrawal.
    + eexists _, _. split; [reflexivity|]. now apply get_balance_spec.
Qed.

Lemma spending_of_positive_amounts_witness :
  exists w' c',
    deposit Examples.food 105.25 (lit "wages") Examples.two_world
      = Returns tt w' /\
    objects w' !! Examples.food = Some c' /\
    withdraw_sum (ledger c') = withdraw_sum (ledger Examples.food_900).
Proof.
  exact (proj1 (proj2 (spending_of_positive_amounts Examples.two_world
                         Examples.food Examples.food_900 105.25
                         eq_refl eq_refl)) (lit "wages")).
Defined.

Lemma negative_amounts_swap_roles_witness :
  exists w' c',
    deposit Examples.food (-5) (lit "refund") Examples.two_world
      = Returns tt w' /\
    objects w' !! Examples.food = Some c' /\
    withdraw_sum (ledger c')
      = withdraw_sum (ledger Examples.food_900) + abs (-5).
Proof.
  exact (proj1 (negative_amounts_swap_roles Examples.two_world Examples.food
                  Examples.food_900 (-5) eq_refl eq_refl) (lit "refund")).
Defined.

Lemma balance_bookkeeping_witness :
  exists w',
    deposit Examples.food 105.25 (lit "wages") Examples.two_world
      = Returns tt w' /\
    get_balance Examples.food w'
      = Returns (sum_amounts (ledger Examples.food_900) + 105.25) w'.
Proof.
  exact (proj1 (balance_bookkeeping Examples.two_world Examples.food
                  Examples.food_900 105.25 eq_refl) (lit "wages")).
Defined.

End Accounting.

(** ** Widths and lines of the statement *)

Section StatementEdges.
Local Open Scope float_scope.
Import FloatFacts.

Lemma center_length (s : str) :
  length (center s 30 "*"%char) = Nat.max 30 (length s) /\
  (30 <= length s -> center s 30 "*"%char = s)%nat.
Proof.
  unfold center. set (marg := (30 - len s)%Z).
  destruct (marg <=? 0)%Z eqn:E.
  - apply Z.leb_le in E. unfold marg, len in E. split; [lia|reflexivity].
  - apply Z.leb_gt in E. unfold marg, len in E.
    destruct (center_30 s) as (l & r & Hc & Hlen & _); [unfold len; lia|].
    unfold center in Hc. fold marg in Hc.
    replace (marg <=? 0)%Z with false in Hc by (symmetry; apply Z.leb_gt; unfold marg, len; lia).
    cbv zeta in Hc. split; [|lia].
    rewrite Hc, !length_app, !repeat_length. lia.
Qed.

Lemma line_spec_width element :
  let d := firstn 23 (description element) in
  let a := Float.format_2f (amount element) in
  length (line_spec element) = Nat.max 30 (length d + length a) /\
  (30 <= length d + length a -> line_spec element = d ++ a)%nat.
Proof.
  intros d a. unfold line_spec, len. fold d a. split.
  - rewrite !length_app, repeat_length. lia.
  - intros H. replace (Z.to_nat _) with 0%nat by lia. reflexivity.
Qed.

(** X15.  No line of a statement is cut or shorter than 30 characters:
    the first line has [max(30, len(name))] characters and is the name
    itself when the name has 30 or more; the line of an entry has
    [max(30, len(d) + len(a))] characters for the description [d] cut to 23
    and the text [a] of the amount, and is [d + a] with no space between
    them when these have 30 or more. *)
Theorem statement_widths (w : world) (self : ref) (c : Category) :
  objects w !! self = Some c ->
  exists header lines,
    Category_str self w
      = Returns (header ++ [newline]
                   ++ concat (map (fun line => line ++ [newline]) lines)
                   ++ lit "Total: " ++ Float.format_2f (sum_amounts (ledger c)))
                w /\
    length header = Nat.max 30 (length (name c)) /\
    (30 <= length (name c) -> header = name c)%nat /\
    Forall2 (fun element line =>
               let d := firstn 23 (description element) in
               let a := Float.format_2f (amount element) in
               length line = Nat.max 30 (length d + length a) /\
               (30 <= length d + length a -> line = d ++ a)%nat)
            (ledger c) lines.
Proof.
  intros H. exists (center (name c) 30 "*"%char), (map line_spec (ledger c)).
  split; [|split; [apply center_length|split; [apply center_length|]]].
  - unfold Category_str, bind, deref. rewrite H.
    rewrite (get_balance_spec _ _ _ H). unfold ret.
    now rewrite statement_loop, map_map, <- !app_assoc.
  - induction (ledger c) as [|element l IH]; cbn [map]; constructor.
    + apply line_spec_width.
    + exact IH.
Qed.

(** X16.  The statement of a category that was just created is its name
    centred with [*] and the line ["Total: 0.00"]. *)
Theorem statement_of_new_category (w : world) (name : str) :
  exists r w',
    Category_init name w = Returns r w' /\
    Category_str r w'
      = Returns (center name 30 "*"%char ++ [newline] ++ lit "Total: 0.00") w'.
Proof.
  eexists _, _. split; [reflexivity|].
  set (w' := mkWorld _ _).
  assert (L : objects w' !! fresh (dom (objects w)) = Some (mkCategory name [])).
  { unfold w'. cbn [objects]. apply lookup_insert_eq. }
  unfold Category_str, bind, deref. rewrite L.
  rewrite (get_balance_spec _ _ _ L). unfold ret. cbn [ledger fold_left].
  now rewrite <- !app_assoc.
Qed.

Lemma uint_no_newline (u : Decimal.uint) :
  newline ∉ lit (NilEmpty.string_of_uint u).
Proof.
  unfold lit.
  induction u as [|u IH|u IH|u IH|u IH|u IH|u IH|u IH|u IH|u IH|u IH];
    cbn [NilEmpty.string_of_uint list_ascii_of_string];
    try (intros H; apply elem_of_cons in H as [H|H];
         [discriminate H|now apply IH]).
  apply not_elem_of_nil.
Qed.

Lemma decimal_no_newline (n : Z) : newline ∉ decimal n.
Proof.
  unfold decimal, NilZero.string_of_uint.
  destruct (N.to_uint (Z.to_N n)) eqn:E; try (rewrite <- E; apply uint_no_newline).
  intros H. apply list_elem_of_singleton in H. discriminate H.
Qed.

Lemma sign_str_no_newline (s : bool) : newline ∉ Float.sign_str s.
Proof.
  destruct s; cbn.
  - intros H. apply list_elem_of_singleton in H. discriminate H.
  - apply not_elem_of_nil.
Qed.

Lemma format_2f_no_newline (x : float) : newline ∉ Float.format_2f x.
Proof.
  unfold Float.format_2f. destruct (Prim2SF x) as [s|s| |s m e].
  - intros H. apply elem_of_app in H as [H|H]; [now apply sign_str_no_newline in H|].
    vm_compute in H. repeat (apply elem_of_cons in H as [H|H]; [discriminate H|]).
    now apply not_elem_of_nil in H.
  - intros H. apply elem_of_app in H as [H|H]; [now apply sign_str_no_newline in H|].
    vm_compute in H. repeat (apply elem_of_cons in H as [H|H]; [discriminate H|]).
    now apply not_elem_of_nil in H.
  - intros H. vm_compute in H.
    repeat (apply elem_of_cons in H as [H|H]; [discriminate H|]).
    now apply not_elem_of_nil in H.
  - set (h := Float.hundredths m e).
    pose proof (hundredths_nonneg m e) as Hh. fold h in Hh.
    pose proof (Z.mod_pos_bound h 10 ltac:(lia)) as B1.
    pose proof (Z.mod_pos_bound h 100 ltac:(lia)) as B2.
    assert (B3 : (0 <= h mod 100 / 10 <= 9)%Z).
    { split; [apply Z.div_pos; lia|].
      enough (h mod 100 / 10 < 10)%Z by lia. apply Z.div_lt_upper_bound; lia. }
    intros H. apply elem_of_app in H as [H|H]; [now apply sign_str_no_newline in H|].
    apply elem_of_app in H as [H|H]; [now apply decimal_no_newline in H|].
    apply elem_of_app in H as [H|H].
    + apply list_elem_of_singleton in H. discriminate H.
    + apply elem_of_cons in H as [H|H];
        [symmetry in H; exact (digit_char_not_newline _ B3 H)|].
      apply list_elem_of_singleton in H. symmetry in H.
      apply (digit_char_not_newline (h mod 10)); [lia|exact H].
Qed.

Lemma count_newline_app (s t : str) :
  count_occ ascii_dec (s ++ t) newline
    = (count_occ ascii_dec s newline + count_occ ascii_dec t newline)%nat.
Proof. apply count_occ_app. Qed.

Lemma count_newline_none (s : str) :
  newline ∉ s -> count_occ ascii_dec s newline = 0%nat.
Proof.
  intros H. apply count_occ_not_In. intros HI. apply H. now apply list_elem_of_In.
Qed.

Lemma repeat_space_no_newline (n : nat) : newline ∉ repeat space n.
Proof.
  induction n; cbn [repeat]; [apply not_elem_of_nil|].
  intros H. apply elem_of_cons in H as [H|H]; [discriminate H|now apply IHn].
Qed.

Lemma repeat_star_no_newline (n : nat) : newline ∉ repeat "*"%char n.
Proof.
  induction n; cbn [repeat]; [apply not_elem_of_nil|].
  intros H. apply elem_of_cons in H as [H|H]; [discriminate H|now apply IHn].
Qed.

Lemma center_no_newline (s : str) :
  newline ∉ s -> newline ∉ center s 30 "*"%char.
Proof.
  intros Hs. unfold center. destruct (_ <=? 0)%Z; [exact Hs|]. cbv zeta.
  intros H. apply elem_of_app in H as [H|H]; [now apply repeat_star_no_newline in H|].
  apply elem_of_app in H as [H|H]; [now apply Hs|now apply repeat_star_no_newline in H].
Qed.

Lemma line_spec_no_newline element :
  newline ∉ description element -> newline ∉ line_spec element.
Proof.
  intros Hd. unfold line_spec. intros H.
  apply elem_of_app in H as [H|H].
  - apply Hd. rewrite <- (firstn_skipn 23 (description element)).
    apply elem_of_app. now left.
  - apply elem_of_app in H as [H|H]; [now apply repeat_space_no_newline in H|].
    now apply format_2f_no_newline in H.
Qed.

(** X17.  When neither the name nor a description holds a newline, the
    statement holds one newline per ledger entry and one more, so it has
    [len(ledger) + 2] lines: no amount, padding or total adds one. *)
Theorem statement_line_count (w : world) (self : ref) (c : Category) :
  objects w !! self = Some c ->
  newline ∉ name c ->
  Forall (fun element => newline ∉ description element) (ledger c) ->
  exists result,
    Category_str self w = Returns result w /\
    count_occ ascii_dec result newline = S (length (ledger c)).
Proof.
  intros H Hn Hd. eexists. split.
  - unfold Category_str, bind, deref. rewrite H.
    rewrite (get_balance_spec _ _ _ H). unfold ret.
    rewrite statement_loop. reflexivity.
  - rewrite !count_newline_app.
    rewrite (count_newline_none _ (center_no_newline _ Hn)).
    rewrite (count_newline_none (lit "Total: ")).
    2:{ vm_compute. intros E.
        repeat (apply elem_of_cons in E as [E|E]; [discriminate E|]).
        now apply not_elem_of_nil in E. }
    rewrite (count_newline_none _ (format_2f_no_newline _)).
    assert (L : count_occ ascii_dec
                  (concat (map (fun element => line_spec element ++ [newline]) (ledger c)))
                  newline = length (ledger c)).
    { induction Hd as [|element l He _ IH]; [reflexivity|].
      cbn [map concat length]. rewrite !count_newline_app, IH.
      rewrite (count_newline_none _ (line_spec_no_newline _ He)).
      reflexivity. }
    rewrite L. cbn. lia.
Qed.

Lemma statement_widths_witness :
  exists header lines,
    Category_str Examples.food Examples.two_world
      = Returns (header ++ [newline]
                   ++ concat (map (fun line => line ++ [newline]) lines)
                   ++ lit "Total: "
                   ++ Float.format_2f (sum_amounts (ledger Examples.food_900)))
                Examples.two_world /\
    length header = Nat.max 30 (length (name Examples.food_900)) /\
    (30 <= length (name Examples.food_900) -> header = name Examples.food_900)%nat /\
    Forall2 (fun element line =>
               let d := firstn 23 (description element) in
               let a := Float.format_2f (amount element) in
               length line = Nat.max 30 (length d + length a) /\
               (30 <= length d + length a -> line = d ++ a)%nat)
            (ledger Examples.food_900) lines.
Proof.
  exact (statement_widths Examples.two_world Examples.food Examples.food_900
           eq_refl).
Defined.

Lemma statement_line_count_witness :
  exists result,
    Category_str Examples.food Examples.two_world
      = Returns result Examples.two_world /\
    count_occ ascii_dec result newline = S (length (ledger Examples.food_900)).
Proof.
  refine (statement_line_count Examples.two_world Examples.food
            Examples.food_900 eq_refl _ _).
  - vm_compute. intros H.
    repeat (apply elem_of_cons in H as [H|H]; [discriminate H|]).
    now apply not_elem_of_nil in H.
  - repeat constructor; vm_compute; intros H;
      repeat (apply elem_of_cons in H as [H|H]; [discriminate H|]);
      now apply not_elem_of_nil in H.
Defined.

End StatementEdges.
